(** * Particle storage and mesh export

    Shallow embeddings of two parts of the sources, each with the properties
    proved about it: the particle storage core ([ParticlesContainer] and
    [ParticlesBlock], namespace [BParticles]) and the geometry extraction of
    the USD mesh writer ([USDGenericMeshWriter]).  The definitions of both
    come first, the proofs after them. *)

From stdpp Require Import gmap strings list fin_maps.
From Stdlib Require Import NArith.

(** * USDGenericMeshWriter: the geometry handed to USD

    [get_vertices], [get_loops_polys], [get_creases] and [get_geometry_data]
    of [usd_writer_mesh.cpp] copy a mesh into the arrays of a [USDMeshData].
    The mesh structs ([Mesh], [MVert], [MEdge], [MLoop], [MPoly]) are declared
    in the DNA headers; they are given here with the members these functions
    read.  A call has no result ([None]) when it reads outside an array of
    the mesh or reserves a negative size. *)

Module USDGenericMeshWriter.

Local Open Scope Z_scope.

(** What the functions need of [float]: literals, the conversion from an
    integer, product and quotient. *)
Record FloatOps (float : Type) : Type := mkFloatOps {
  float_lit : Z → float;
  float_of_int : Z → float;
  float_mul : float → float → float;
  float_div : float → float → float
}.

Arguments float_lit {float} _ _.
Arguments float_of_int {float} _ _.
Arguments float_mul {float} _ _ _.
Arguments float_div {float} _ _ _.

(** Floats as the expressions that compute them. *)
Inductive float_expr : Type :=
  | FLit (n : Z)
  | FOfInt (n : Z)
  | FMul (a b : float_expr)
  | FDiv (a b : float_expr)
  | FSharpnessInfinite.

Definition float_expr_ops : FloatOps float_expr :=
  mkFloatOps float_expr FLit FOfInt FMul FDiv.

(** An [unsigned int] stored into an [int]. *)
Definition int_of_uint (n : Z) : Z :=
  if decide (n < 2 ^ 31) then n else n - 2 ^ 32.

Module MVert.
Record t (float : Type) : Type := mk { co : float * float * float }.
Arguments mk {float} _.
Arguments co {float} _.
End MVert.

Module MEdge.
Record t : Type := mk { v1 : Z; v2 : Z; crease : Z }.
End MEdge.

Module MLoop.
Record t : Type := mk { v : Z }.
End MLoop.

Module MPoly.
Record t : Type := mk { loopstart : Z; totloop : Z; mat_nr : Z }.
End MPoly.

Module Mesh.
Record t (float : Type) : Type := mk {
  totvert : Z;
  mvert : list (MVert.t float);
  totedge : Z;
  medge : list MEdge.t;
  totloop : Z;
  mloop : list MLoop.t;
  totpoly : Z;
  mpoly : list MPoly.t;
  totcol : Z
}.
Arguments mk {float} _ _ _ _ _ _ _ _ _.
Arguments totvert {float} _.
Arguments mvert {float} _.
Arguments totedge {float} _.
Arguments medge {float} _.
Arguments totloop {float} _.
Arguments mloop {float} _.
Arguments totpoly {float} _.
Arguments mpoly {float} _.
Arguments totcol {float} _.
End Mesh.

(** [struct USDMeshData]. *)
Record USDMeshData (float : Type) : Type := mkUSDMeshData {
  points : list (float * float * float);
  face_vertex_counts : list Z;
  face_indices : list Z;
  face_groups : gmap Z (list Z);
  crease_lengths : list Z;
  crease_vertex_indices : list Z;
  crease_sharpnesses : list float
}.

Arguments mkUSDMeshData {float} _ _ _ _ _ _ _.
Arguments points {float} _.
Arguments face_vertex_counts {float} _.
Arguments face_indices {float} _.
Arguments face_groups {float} _.
Arguments crease_lengths {float} _.
Arguments crease_vertex_indices {float} _.
Arguments crease_sharpnesses {float} _.

(** A default-constructed [USDMeshData], as [write_mesh] declares it. *)
Definition empty_data {float} : USDMeshData float :=
  mkUSDMeshData [] [] [] ∅ [] [] [].

(** [a[i]] through a pointer into the array [a]. *)
Definition array_at {A} (a : list A) (i : Z) : option A :=
  if decide (0 ≤ i) then a !! Z.to_nat i else None.

(** [reserve(n)]: the content stays; a negative [int] is no size. *)
Definition reserve {A} (a : list A) (n : Z) : option (list A) :=
  if decide (0 ≤ n) then Some a else None.

(** [push_back]. *)
Definition push_back {A} (a : list A) (x : A) : list A := a ++ [x].

(** [for (int i = first; i < first + count; ++i) body]. *)
Fixpoint for_loop {S} (first count : nat) (body : nat → S → option S) (s : S)
  : option S :=
  match count with
  | O => Some s
  | Datatypes.S count' =>
      match body first s with
      | Some s' => for_loop (Datatypes.S first) count' body s'
      | None => None
      end
  end.

(** [static void get_vertices(const Mesh *mesh, USDMeshData &usd_mesh_data)] *)
Definition get_vertices {float} (mesh : Mesh.t float) (usd_mesh_data : USDMeshData float)
  : option (USDMeshData float) :=
  match reserve (points usd_mesh_data) (Mesh.totvert mesh) with
  | None => None
  | Some pts =>
      for_loop 0 (Z.to_nat (Mesh.totvert mesh))
        (λ i d,
           match Mesh.mvert mesh !! i with
           | None => None
           | Some vert =>
               Some (mkUSDMeshData (push_back (points d) (MVert.co vert))
                       (face_vertex_counts d) (face_indices d) (face_groups d)
                       (crease_lengths d) (crease_vertex_indices d)
                       (crease_sharpnesses d))
           end)
        (mkUSDMeshData pts
           (face_vertex_counts usd_mesh_data) (face_indices usd_mesh_data)
           (face_groups usd_mesh_data) (crease_lengths usd_mesh_data)
           (crease_vertex_indices usd_mesh_data) (crease_sharpnesses usd_mesh_data))
  end.

(** [face_groups[mat_nr].push_back(i)] on a [std::map]. *)
Definition group_push_back (groups : gmap Z (list Z)) (mat_nr i : Z)
  : gmap Z (list Z) :=
  <[mat_nr := push_back (default [] (groups !! mat_nr)) i]> groups.

(** The inner loop of [get_loops_polys]: the vertices of one polygon. *)
Definition push_loops (mloop : list MLoop.t) (poly : MPoly.t) (indices : list Z)
  : option (list Z) :=
  for_loop 0 (Z.to_nat (MPoly.totloop poly))
    (λ j indices,
       match array_at mloop (MPoly.loopstart poly + Z.of_nat j) with
       | None => None
       | Some loop => Some (push_back indices (int_of_uint (MLoop.v loop)))
       end)
    indices.

(** [static void get_loops_polys(const Mesh *mesh, USDMeshData &usd_mesh_data)] *)
Definition get_loops_polys {float} (mesh : Mesh.t float) (usd_mesh_data : USDMeshData float)
  : option (USDMeshData float) :=
  let construct_face_groups := bool_decide (1 < Mesh.totcol mesh) in
  match reserve (face_vertex_counts usd_mesh_data) (Mesh.totpoly mesh),
        reserve (face_indices usd_mesh_data) (Mesh.totloop mesh) with
  | Some counts, Some indices =>
      for_loop 0 (Z.to_nat (Mesh.totpoly mesh))
        (λ i d,
           match Mesh.mpoly mesh !! i with
           | None => None
           | Some mpoly =>
               match push_loops (Mesh.mloop mesh) mpoly (face_indices d) with
               | None => None
               | Some indices' =>
                   Some (mkUSDMeshData (points d)
                           (push_back (face_vertex_counts d) (MPoly.totloop mpoly))
                           indices'
                           (if construct_face_groups
                            then group_push_back (face_groups d)
                                   (MPoly.mat_nr mpoly) (Z.of_nat i)
                            else face_groups d)
                           (crease_lengths d) (crease_vertex_indices d)
                           (crease_sharpnesses d))
               end
           end)
        (mkUSDMeshData (points usd_mesh_data) counts indices
           (face_groups usd_mesh_data) (crease_lengths usd_mesh_data)
           (crease_vertex_indices usd_mesh_data) (crease_sharpnesses usd_mesh_data))
  | _, _ => None
  end.

(** The sharpness [get_creases] gives an edge whose crease is not 0. *)
Definition edge_sharpness {float} (ops : FloatOps float)
    (SHARPNESS_INFINITE : float) (edge : MEdge.t) : float :=
  let factor := float_div ops (float_lit ops 1) (float_lit ops 255) in
  if decide (MEdge.crease edge = 255) then SHARPNESS_INFINITE
  else float_mul ops (float_of_int ops (MEdge.crease edge)) factor.

(** [static void get_creases(const Mesh *mesh, USDMeshData &usd_mesh_data)] *)
Definition get_creases {float} (ops : FloatOps float) (SHARPNESS_INFINITE : float)
    (mesh : Mesh.t float) (usd_mesh_data : USDMeshData float)
  : option (USDMeshData float) :=
  for_loop 0 (Z.to_nat (Mesh.totedge mesh))
    (λ edge_idx d,
       match Mesh.medge mesh !! edge_idx with
       | None => None
       | Some edge =>
           if decide (MEdge.crease edge = 0) then Some d
           else
             let sharpness := edge_sharpness ops SHARPNESS_INFINITE edge in
             Some (mkUSDMeshData (points d) (face_vertex_counts d)
                     (face_indices d) (face_groups d)
                     (push_back (crease_lengths d) 2)
                     (push_back
                        (push_back (crease_vertex_indices d)
                           (int_of_uint (MEdge.v1 edge)))
                        (int_of_uint (MEdge.v2 edge)))
                     (push_back (crease_sharpnesses d) sharpness))
       end)
    usd_mesh_data.

(** [void USDGenericMeshWriter::get_geometry_data(const Mesh *mesh,
    USDMeshData &usd_mesh_data)] *)
Definition get_geometry_data {float} (ops : FloatOps float) (SHARPNESS_INFINITE : float)
    (mesh : Mesh.t float) (usd_mesh_data : USDMeshData float)
  : option (USDMeshData float) :=
  match get_vertices mesh usd_mesh_data with
  | None => None
  | Some d1 =>
      match get_loops_polys mesh d1 with
      | None => None
      | Some d2 => get_creases ops SHARPNESS_INFINITE mesh d2
      end
  end.

(** ** What the writer reads of a mesh *)

(** The edges [get_creases] visits and keeps. *)
Definition creased_edges {float} (mesh : Mesh.t float) : list MEdge.t :=
  filter (λ e, MEdge.crease e ≠ 0)
         (take (Z.to_nat (Mesh.totedge mesh)) (Mesh.medge mesh)).

(** The polygons [get_loops_polys] visits. *)
Definition polys {float} (mesh : Mesh.t float) : list MPoly.t :=
  take (Z.to_nat (Mesh.totpoly mesh)) (Mesh.mpoly mesh).

(** The loops of a polygon. *)
Definition poly_loops (mloop : list MLoop.t) (poly : MPoly.t) : list MLoop.t :=
  take (Z.to_nat (MPoly.totloop poly))
       (drop (Z.to_nat (MPoly.loopstart poly)) mloop).

Definition sum_list (l : list Z) : Z := foldr Z.add 0 l.

(** The indices of the polygons with material [m], the first polygon of the
    list having index [first]. *)
Fixpoint material_faces (m : Z) (first : nat) (polys : list MPoly.t) : list Z :=
  match polys with
  | [] => []
  | poly :: rest =>
      (if decide (MPoly.mat_nr poly = m) then [Z.of_nat first] else [])
      ++ material_faces m (S first) rest
  end.

(** The vertex indices [get_loops_polys] stores for a polygon. *)
Definition poly_indices (mloop : list MLoop.t) (poly : MPoly.t) : list Z :=
  (λ loop, int_of_uint (MLoop.v loop)) <$> poly_loops mloop poly.

(** The two vertex indices [get_creases] stores for an edge. *)
Definition edge_indices (edge : MEdge.t) : list Z :=
  [int_of_uint (MEdge.v1 edge); int_of_uint (MEdge.v2 edge)].

(** What the comments of [USDMeshData] ask of the crease arrays: every
    crease is longer than one vertex, the vertex indices are as many as the
    lengths add up to, and there is one sharpness per crease. *)
Definition creases_consistent {float} (d : USDMeshData float) : Prop :=
  Forall (λ n, 1 < n) (crease_lengths d)
  ∧ Z.of_nat (length (crease_vertex_indices d)) = sum_list (crease_lengths d)
  ∧ length (crease_sharpnesses d) = length (crease_lengths d).

(** The face arrays fit: the vertex indices are as many as the counts add up
    to. *)
Definition faces_consistent {float} (d : USDMeshData float) : Prop :=
  Z.of_nat (length (face_indices d)) = sum_list (face_vertex_counts d).

(** The counts agree with the arrays, and every polygon lies in [mloop]. *)
Record mesh_wf {float} (mesh : Mesh.t float) : Prop := mk_mesh_wf {
  wf_totvert : 0 ≤ Mesh.totvert mesh ≤ Z.of_nat (length (Mesh.mvert mesh));
  wf_totedge : 0 ≤ Mesh.totedge mesh ≤ Z.of_nat (length (Mesh.medge mesh));
  wf_totpoly : 0 ≤ Mesh.totpoly mesh ≤ Z.of_nat (length (Mesh.mpoly mesh));
  wf_totloop : 0 ≤ Mesh.totloop mesh;
  wf_polys : ∀ poly, poly ∈ polys mesh →
    0 ≤ MPoly.loopstart poly ∧ 0 ≤ MPoly.totloop poly
    ∧ MPoly.loopstart poly + MPoly.totloop poly
      ≤ Z.of_nat (length (Mesh.mloop mesh))
}.

(** ** A mesh to run on: a quad and a triangle sharing an edge, two
    materials, one edge with a crease of 255 and one with a crease of 128. *)

Definition demo_mesh : Mesh.t float_expr :=
  Mesh.mk
    5 [MVert.mk (FLit 0, FLit 0, FLit 0); MVert.mk (FLit 1, FLit 0, FLit 0);
       MVert.mk (FLit 1, FLit 1, FLit 0); MVert.mk (FLit 0, FLit 1, FLit 0);
       MVert.mk (FLit 2, FLit 0, FLit 0)]
    6 [MEdge.mk 0 1 0; MEdge.mk 1 2 255; MEdge.mk 2 3 0; MEdge.mk 3 0 0;
       MEdge.mk 1 4 128; MEdge.mk 4 2 0]
    7 [MLoop.mk 0; MLoop.mk 1; MLoop.mk 2; MLoop.mk 3;
       MLoop.mk 1; MLoop.mk 4; MLoop.mk 2]
    2 [MPoly.mk 0 4 0; MPoly.mk 4 3 1]
    2.

End USDGenericMeshWriter.

(** * BParticles: the particle storage core

    A shallow embedding of [ParticlesContainer] and [ParticlesBlock]
    (simulations/bparticles, header [particles_container.hpp]) together with
    the properties the storage specification states about them.

    The header gives the two classes and the bodies of every inline accessor.
    Blocks and containers are C++ objects that refer to each other through a
    reference ([ParticlesBlock::m_container]) and through raw pointers
    ([ParticlesContainer::m_blocks], [float *], [Vec3 *]); the embedding keeps
    that shape: one store, four typed regions, and every method a computation
    over the store. *)

Module BParticles.

(** ** Machine data *)

(** [uint] is a 32-bit unsigned integer.  Values are carried as [N]; the only
    arithmetic on them in this development is the caller's increment of the
    active amount, which wraps. *)
Definition UINT_MAX : N := 4294967295.

Definition uint_wrap (n : N) : N := (n mod (UINT_MAX + 1))%N.

(** A [float] is stored and loaded, never computed with: it is carried as the
    32 bits of its IEEE-754 single precision encoding. *)
Inductive float : Type := FloatBits (bits : N).

(** [BLI::Vec3] (declared in [BLI_math.hpp]): three floats. *)
Record Vec3 : Type := mkVec3 { vec_x : float; vec_y : float; vec_z : float }.

#[global] Instance float_eq_dec : EqDecision float.
Proof. solve_decision. Defined.

#[global] Instance Vec3_eq_dec : EqDecision Vec3.
Proof. solve_decision. Defined.

(** Addresses.  [ParticlesContainer &], [ParticlesBlock *], [float *] and
    [Vec3 *] are addresses into the region of the store that holds objects of
    that type. *)
Abbreviation addr := positive.

(** ** The two classes *)

(** [class ParticlesContainer]: the four private members. *)
Record ParticlesContainer : Type := mkParticlesContainer {
  m_block_size : N;
  m_float_attribute_names : list string;
  m_vec3_attribute_names : list string;
  m_blocks : gset positive
}.

(** [class ParticlesBlock]: the four private members.  [m_container] is a
    reference, the two vectors hold raw pointers to the attribute arrays. *)
Record ParticlesBlock : Type := mkParticlesBlock {
  m_container : positive;
  m_float_buffers : list positive;
  m_vec3_buffers : list positive;
  m_active_amount : N
}.

(** ** The store *)

(** The objects of each type, by address.  An array cell is [None] until it
    is first written: freshly allocated attribute arrays have indeterminate
    content.  [mem_free] is what the allocator can still hand out, counted in
    floats. *)
Record Heap : Type := mkHeap {
  containers : gmap positive ParticlesContainer;
  blocks : gmap positive ParticlesBlock;
  float_arrays : gmap positive (list (option float));
  vec3_arrays : gmap positive (list (option Vec3));
  mem_free : N
}.

Definition empty_heap (budget : N) : Heap := mkHeap ∅ ∅ ∅ ∅ budget.

(** ** Outcomes *)

(** The error taxonomy of the storage core. *)
Inductive Error : Type :=
  | ConfigError
  | UnknownAttribute
  | InvalidHandle
  | OutOfMemory.

(** A call returns a value, signals an error, or has no defined behaviour
    ([Undef]: a dangling object, a subscript past the end of a vector or an
    array, a load from a cell that was never written). *)
Inductive Result (A : Type) : Type :=
  | Ok (a : A)
  | Err (e : Error)
  | Undef.

Arguments Ok {A} a.
Arguments Err {A} e.
Arguments Undef {A}.

(** Computations over the store.  The store comes back in every case: an
    error does not roll back what was done before it. *)
Definition M (A : Type) : Type := Heap → Result A * Heap.

Definition ret {A} (a : A) : M A := λ h, (Ok a, h).

Definition bind {A B} (m : M A) (k : A → M B) : M B := λ h,
  match m h with
  | (Ok a, h') => k a h'
  | (Err e, h') => (Err e, h')
  | (Undef, h') => (Undef, h')
  end.

Definition undefined {A} : M A := λ h, (Undef, h).

Definition lift {A} (r : Result A) : M A := λ h, (r, h).

Declare Scope heap_scope.
Delimit Scope heap_scope with heap.
Notation "'let*' x ':=' m 'in' k" := (bind m (λ x, k))
  (at level 10, x name, m at level 100, k at level 200) : heap_scope.
Local Open Scope heap_scope.

Definition get_container (c : addr) : M ParticlesContainer := λ h,
  match containers h !! c with
  | Some cont => (Ok cont, h)
  | None => (Undef, h)
  end.

Definition get_block (b : addr) : M ParticlesBlock := λ h,
  match blocks h !! b with
  | Some blk => (Ok blk, h)
  | None => (Undef, h)
  end.

(** Overwrites the object at [b]; the object must exist. *)
Definition put_block (b : addr) (blk : ParticlesBlock) : M unit := λ h,
  match blocks h !! b with
  | Some _ =>
      (Ok tt, mkHeap (containers h) (<[b := blk]> (blocks h))
                     (float_arrays h) (vec3_arrays h) (mem_free h))
  | None => (Undef, h)
  end.

(** [SmallVector::operator[]]: no behaviour past the end. *)
Definition subscript {A} (v : list A) (index : N) : M A :=
  match v !! N.to_nat index with
  | Some a => ret a
  | None => undefined
  end.

(** ** BLI::SmallSetVector<std::string> *)

Module SmallSetVector.

(** [size()]. *)
Definition size (names : list string) : N := N.of_nat (length names).

(** Modelled from the spec: [SmallSetVector::index], whose body is in
    [BLI_small_set_vector.hpp].  Insertion order defines the index of a name;
    a name that was never registered is an [UnknownAttribute] failure. *)
Fixpoint index_from (i : N) (names : list string) (name : string) : Result N :=
  match names with
  | [] => Err UnknownAttribute
  | n :: rest =>
      if decide (n = name) then Ok i else index_from (N.succ i) rest name
  end.

Definition index (names : list string) (name : string) : Result N :=
  index_from 0 names name.

End SmallSetVector.

(** ** ParticlesContainer: the inline methods *)

(** [uint ParticlesContainer::block_size() const] *)
Definition block_size (this : addr) : M N :=
  let* cont := get_container this in
  ret (m_block_size cont).

(** [uint ParticlesContainer::float_attribute_amount() const] *)
Definition float_attribute_amount (this : addr) : M N :=
  let* cont := get_container this in
  ret (SmallSetVector.size (m_float_attribute_names cont)).

(** [uint ParticlesContainer::vec3_attribute_amount() const] *)
Definition vec3_attribute_amount (this : addr) : M N :=
  let* cont := get_container this in
  ret (SmallSetVector.size (m_vec3_attribute_names cont)).

(** [uint ParticlesContainer::float_buffer_index(StringRef name) const] *)
Definition float_buffer_index (this : addr) (name : string) : M N :=
  let* cont := get_container this in
  lift (SmallSetVector.index (m_float_attribute_names cont) name).

(** [uint ParticlesContainer::vec3_buffer_index(StringRef name) const] *)
Definition vec3_buffer_index (this : addr) (name : string) : M N :=
  let* cont := get_container this in
  lift (SmallSetVector.index (m_vec3_attribute_names cont) name).

(** [const SmallSet<ParticlesBlock *> &ParticlesContainer::active_blocks()] *)
Definition active_blocks (this : addr) : M (gset positive) :=
  let* cont := get_container this in
  ret (m_blocks cont).

(** ** ParticlesBlock: the inline methods *)

(** [uint &ParticlesBlock::active_amount()], read through the reference. *)
Definition active_amount (this : addr) : M N :=
  let* blk := get_block this in
  ret (m_active_amount blk).

(** [block->active_amount() = n]: a store through the returned reference.
    Nothing checks [n] against the capacity. *)
Definition set_active_amount (this : addr) (n : N) : M unit :=
  let* blk := get_block this in
  put_block this (mkParticlesBlock (m_container blk) (m_float_buffers blk)
                                   (m_vec3_buffers blk) n).

(** [block->active_amount()++]: the caller's increment, on a [uint]. *)
Definition increment_active_amount (this : addr) : M unit :=
  let* n := active_amount this in
  set_active_amount this (uint_wrap (n + 1)).

(** [uint ParticlesBlock::size()] *)
Definition size (this : addr) : M N :=
  let* blk := get_block this in
  block_size (m_container blk).

(** [bool ParticlesBlock::is_full()] *)
Definition is_full (this : addr) : M bool :=
  let* blk := get_block this in
  let* s := size this in
  ret (m_active_amount blk =? s)%N.

(** [uint ParticlesBlock::next_inactive_index()] *)
Definition next_inactive_index (this : addr) : M N :=
  let* blk := get_block this in
  ret (m_active_amount blk).

(** [void ParticlesBlock::clear()] *)
Definition clear (this : addr) : M unit :=
  let* blk := get_block this in
  put_block this (mkParticlesBlock (m_container blk) (m_float_buffers blk)
                                   (m_vec3_buffers blk) 0).

(** [ParticlesContainer &ParticlesBlock::container()] *)
Definition container (this : addr) : M positive :=
  let* blk := get_block this in
  ret (m_container blk).

(** [ArrayRef<float *> ParticlesBlock::float_buffers()] *)
Definition float_buffers (this : addr) : M (list positive) :=
  let* blk := get_block this in
  ret (m_float_buffers blk).

(** [ArrayRef<Vec3 *> ParticlesBlock::vec3_buffers()] *)
Definition vec3_buffers (this : addr) : M (list positive) :=
  let* blk := get_block this in
  ret (m_vec3_buffers blk).

(** [float *ParticlesBlock::float_buffer(StringRef name)] *)
Definition float_buffer (this : addr) (name : string) : M positive :=
  let* blk := get_block this in
  let* index := float_buffer_index (m_container blk) name in
  subscript (m_float_buffers blk) index.

(** [Vec3 *ParticlesBlock::vec3_buffer(StringRef name)] *)
Definition vec3_buffer (this : addr) (name : string) : M positive :=
  let* blk := get_block this in
  let* index := vec3_buffer_index (m_container blk) name in
  subscript (m_vec3_buffers blk) index.

(** ** The attribute arrays *)

(** [buffer[i]] read through a [float *]. *)
Definition read_float (buffer : addr) (i : N) : M float := λ h,
  match float_arrays h !! buffer with
  | Some arr =>
      match arr !! N.to_nat i with
      | Some (Some v) => (Ok v, h)
      | _ => (Undef, h)
      end
  | None => (Undef, h)
  end.

(** [buffer[i] = v] through a [float *]. *)
Definition write_float (buffer : addr) (i : N) (v : float) : M unit := λ h,
  match float_arrays h !! buffer with
  | Some arr =>
      if decide (N.to_nat i < length arr) then
        (Ok tt, mkHeap (containers h) (blocks h)
                       (<[buffer := <[N.to_nat i := Some v]> arr]> (float_arrays h))
                       (vec3_arrays h) (mem_free h))
      else (Undef, h)
  | None => (Undef, h)
  end.

(** [buffer[i]] read through a [Vec3 *]. *)
Definition read_vec3 (buffer : addr) (i : N) : M Vec3 := λ h,
  match vec3_arrays h !! buffer with
  | Some arr =>
      match arr !! N.to_nat i with
      | Some (Some v) => (Ok v, h)
      | _ => (Undef, h)
      end
  | None => (Undef, h)
  end.

(** [buffer[i] = v] through a [Vec3 *]. *)
Definition write_vec3 (buffer : addr) (i : N) (v : Vec3) : M unit := λ h,
  match vec3_arrays h !! buffer with
  | Some arr =>
      if decide (N.to_nat i < length arr) then
        (Ok tt, mkHeap (containers h) (blocks h) (float_arrays h)
                       (<[buffer := <[N.to_nat i := Some v]> arr]> (vec3_arrays h))
                       (mem_free h))
      else (Undef, h)
  | None => (Undef, h)
  end.

(** The container after a change of its live-block set. *)
Definition with_blocks (cont : ParticlesContainer) (live : gset positive)
  : ParticlesContainer :=
  mkParticlesContainer (m_block_size cont) (m_float_attribute_names cont)
                       (m_vec3_attribute_names cont) live.

(** ** Construction, allocation and release

    The header declares the constructors, [new_block] and [release_block];
    their bodies are in [particles_container.cpp]. *)

(** Modelled from the spec: the [ParticlesBlock] constructor, declared with
    the default [active_amount = 0].  It stores its arguments. *)
Definition ParticlesBlock_new (container : addr)
    (float_buffers vec3_buffers : list positive) (active_amount : N)
  : ParticlesBlock :=
  mkParticlesBlock container float_buffers vec3_buffers active_amount.

(** Modelled from the spec: the [ParticlesContainer] constructor, named
    [construct(blockSize, floatAttributeNames, vec3AttributeNames)] there.  It
    builds the schema and fails with [ConfigError] if [block_size] is 0 or if
    either name list contains duplicates.  The new container owns no block. *)
Definition construct (block_size : N)
    (float_attribute_names vec3_attribute_names : list string) : M positive := λ h,
  if decide (block_size = 0%N) then (Err ConfigError, h)
  else if decide (NoDup float_attribute_names) then
    if decide (NoDup vec3_attribute_names) then
      let this := fresh (dom (containers h)) in
      (Ok this,
       mkHeap (<[this := mkParticlesContainer block_size float_attribute_names
                           vec3_attribute_names ∅]> (containers h))
              (blocks h) (float_arrays h) (vec3_arrays h) (mem_free h))
    else (Err ConfigError, h)
  else (Err ConfigError, h).

(** [count] fresh arrays of [len] cells each, none of them written yet. *)
Fixpoint alloc_arrays {A} (count len : nat) (arrays : gmap positive (list (option A)))
  : list positive * gmap positive (list (option A)) :=
  match count with
  | O => ([], arrays)
  | S count' =>
      let p := fresh (dom arrays) in
      let '(ps, arrays') := alloc_arrays count' len (<[p := replicate len None]> arrays) in
      (p :: ps, arrays')
  end.

(** What one block of a container takes from the allocator, in floats. *)
Definition block_cost (cont : ParticlesContainer) : N :=
  (m_block_size cont *
   (SmallSetVector.size (m_float_attribute_names cont)
    + 3 * SmallSetVector.size (m_vec3_attribute_names cont)))%N.

(** Modelled from the spec: [ParticlesContainer::new_block].  It allocates a
    fresh block with [active_amount] 0, one array of [block_size] cells per
    registered float attribute and one per registered vec3 attribute,
    registers the block in the live-block set and returns its address.  It
    fails only when the allocator is exhausted, with [OutOfMemory]. *)
Definition new_block (this : addr) : M positive := λ h,
  match containers h !! this with
  | None => (Undef, h)
  | Some cont =>
      if decide (block_cost cont ≤ mem_free h)%N then
        let len := N.to_nat (m_block_size cont) in
        let '(fbufs, farrays) :=
          alloc_arrays (length (m_float_attribute_names cont)) len (float_arrays h) in
        let '(vbufs, varrays) :=
          alloc_arrays (length (m_vec3_attribute_names cont)) len (vec3_arrays h) in
        let block := fresh (dom (blocks h)) in
        (Ok block,
         mkHeap (<[this := with_blocks cont ({[block]} ∪ m_blocks cont)]>
                   (containers h))
                (<[block := ParticlesBlock_new this fbufs vbufs 0]> (blocks h))
                farrays varrays (mem_free h - block_cost cont))
      else (Err OutOfMemory, h)
  end.

(** Frees the arrays at the given addresses. *)
Definition free_arrays {A} (ps : list positive) (arrays : gmap positive (list (option A)))
  : gmap positive (list (option A)) :=
  foldr delete arrays ps.

(** Modelled from the spec: [ParticlesContainer::release_block].  It removes
    the block from the live-block set and frees its buffers; it fails with
    [InvalidHandle] if the block is not currently owned by this container. *)
Definition release_block (this : addr) (block : addr) : M unit := λ h,
  match containers h !! this with
  | None => (Undef, h)
  | Some cont =>
      if decide (block ∈ m_blocks cont) then
        match blocks h !! block with
        | None => (Undef, h)
        | Some blk =>
            (Ok tt,
             mkHeap (<[this := with_blocks cont (m_blocks cont ∖ {[block]})]>
                       (containers h))
                    (delete block (blocks h))
                    (free_arrays (m_float_buffers blk) (float_arrays h))
                    (free_arrays (m_vec3_buffers blk) (vec3_arrays h))
                    (mem_free h + block_cost cont))
        end
      else (Err InvalidHandle, h)
  end.

(** ** The calls that change the store *)

(** Two states of a container with one schema. *)
Definition same_schema (cont cont' : ParticlesContainer) : Prop :=
  m_block_size cont' = m_block_size cont
  ∧ m_float_attribute_names cont' = m_float_attribute_names cont
  ∧ m_vec3_attribute_names cont' = m_vec3_attribute_names cont.

Inductive Call : Type :=
  | CallConstruct (block_size : N) (float_attribute_names vec3_attribute_names : list string)
  | CallNewBlock (container : addr)
  | CallReleaseBlock (container block : addr)
  | CallSetActiveAmount (block : addr) (n : N)
  | CallClear (block : addr)
  | CallWriteFloat (buffer : addr) (i : N) (v : float)
  | CallWriteVec3 (buffer : addr) (i : N) (v : Vec3).

Definition discard {A} (m : M A) : M unit :=
  let* _ := m in ret tt.

Definition exec (call : Call) : M unit :=
  match call with
  | CallConstruct bs fn vn => discard (construct bs fn vn)
  | CallNewBlock c => discard (new_block c)
  | CallReleaseBlock c b => release_block c b
  | CallSetActiveAmount b n => set_active_amount b n
  | CallClear b => clear b
  | CallWriteFloat p i v => write_float p i v
  | CallWriteVec3 p i v => write_vec3 p i v
  end.

(** One call with a defined behaviour: it returned or it signalled an error. *)
Inductive step (h h' : Heap) : Prop :=
  | step_call (call : Call) (r : Result unit) :
      exec call h = (r, h') → r ≠ Undef → step h h'.

(** The stores a program can be in: any number of calls from an empty store. *)
Definition reachable (h : Heap) : Prop :=
  ∃ budget, rtc step (empty_heap budget) h.

(** ** The storage invariant *)

(** A block of the store: it is owned by its container, it carries one array
    per attribute of the schema, each of [block_size] cells, and no array
    twice. *)
Record block_wf (h : Heap) (b : addr) (blk : ParticlesBlock)
    (cont : ParticlesContainer) : Prop := mk_block_wf {
  bw_live : b ∈ m_blocks cont;
  bw_float_count :
    length (m_float_buffers blk) = length (m_float_attribute_names cont);
  bw_vec3_count :
    length (m_vec3_buffers blk) = length (m_vec3_attribute_names cont);
  bw_float_alloc : ∀ p, p ∈ m_float_buffers blk →
    ∃ arr, float_arrays h !! p = Some arr
           ∧ length arr = N.to_nat (m_block_size cont);
  bw_vec3_alloc : ∀ p, p ∈ m_vec3_buffers blk →
    ∃ arr, vec3_arrays h !! p = Some arr
           ∧ length arr = N.to_nat (m_block_size cont);
  bw_float_nodup : NoDup (m_float_buffers blk);
  bw_vec3_nodup : NoDup (m_vec3_buffers blk)
}.

(** The store: a block that a container lists exists and refers back to that
    container, every block is well formed for the container it refers to,
    and two blocks share no array. *)
Record heap_wf (h : Heap) : Prop := mk_heap_wf {
  hw_owned : ∀ c cont b, containers h !! c = Some cont → b ∈ m_blocks cont →
    ∃ blk, blocks h !! b = Some blk ∧ m_container blk = c;
  hw_block : ∀ b blk, blocks h !! b = Some blk →
    ∃ cont, containers h !! m_container blk = Some cont ∧ block_wf h b blk cont;
  hw_float_sep : ∀ b1 b2 blk1 blk2 p, b1 ≠ b2 →
    blocks h !! b1 = Some blk1 → blocks h !! b2 = Some blk2 →
    p ∈ m_float_buffers blk1 → p ∉ m_float_buffers blk2;
  hw_vec3_sep : ∀ b1 b2 blk1 blk2 p, b1 ≠ b2 →
    blocks h !! b1 = Some blk1 → blocks h !! b2 = Some blk2 →
    p ∈ m_vec3_buffers blk1 → p ∉ m_vec3_buffers blk2
}.

(** ** A store to run the calls on

    A container with block size 4, the float attributes [mass] and [age] and
    the vec3 attribute [position], built in an empty store, and one block of
    it. *)

Definition demo_constructed : Heap :=
  snd (construct 4 ["mass"; "age"] ["position"] (empty_heap 1024)).

Definition demo_store : Heap := snd (new_block 1 demo_constructed).

Definition demo_released : Heap := snd (release_block 1 1 demo_store).

Definition demo_schema (live : gset positive) : ParticlesContainer :=
  mkParticlesContainer 4 ["mass"; "age"] ["position"] live.

Definition demo_block : ParticlesBlock :=
  mkParticlesBlock 1 [1; 2]%positive [1%positive] 0.

(** 1.5 as an IEEE-754 single. *)
Definition one_and_a_half : float := FloatBits 0x3FC00000.

(** ** Running the accessors *)

(** Closes a decidable goal by evaluation. *)
Ltac by_evaluation :=
  refine (bool_decide_unpack _ _); vm_compute; exact I.

Section Accessors.

Context (h : Heap) (b : addr) (blk : ParticlesBlock).
Hypothesis Hblk : blocks h !! b = Some blk.

Lemma active_amount_run : active_amount b h = (Ok (m_active_amount blk), h).
Proof. unfold active_amount, bind, get_block, ret. by rewrite Hblk. Qed.

Lemma next_inactive_index_run :
  next_inactive_index b h = (Ok (m_active_amount blk), h).
Proof. unfold next_inactive_index, bind, get_block, ret. by rewrite Hblk. Qed.

Lemma container_run : container b h = (Ok (m_container blk), h).
Proof. unfold container, bind, get_block, ret. by rewrite Hblk. Qed.

Lemma float_buffers_run : float_buffers b h = (Ok (m_float_buffers blk), h).
Proof. unfold float_buffers, bind, get_block, ret. by rewrite Hblk. Qed.

Lemma vec3_buffers_run : vec3_buffers b h = (Ok (m_vec3_buffers blk), h).
Proof. unfold vec3_buffers, bind, get_block, ret. by rewrite Hblk. Qed.

Lemma size_run : size b h = block_size (m_container blk) h.
Proof. unfold size, bind, get_block. by rewrite Hblk. Qed.

Lemma set_active_amount_run n :
  set_active_amount b n h =
    (Ok tt, mkHeap (containers h)
              (<[b := mkParticlesBlock (m_container blk) (m_float_buffers blk)
                        (m_vec3_buffers blk) n]> (blocks h))
              (float_arrays h) (vec3_arrays h) (mem_free h)).
Proof.
  unfold set_active_amount, bind, get_block, put_block.
  rewrite Hblk. cbn beta iota. by rewrite Hblk.
Qed.

Lemma clear_run : clear b h = set_active_amount b 0 h.
Proof. reflexivity. Qed.

Lemma increment_active_amount_run :
  increment_active_amount b h =
    set_active_amount b (uint_wrap (m_active_amount blk + 1)) h.
Proof.
  unfold increment_active_amount, bind. by rewrite active_amount_run.
Qed.

Context (cont : ParticlesContainer).
Hypothesis Hcont : containers h !! m_container blk = Some cont.

Lemma block_size_run : block_size (m_container blk) h = (Ok (m_block_size cont), h).
Proof. unfold block_size, bind, get_container, ret. by rewrite Hcont. Qed.

Lemma size_value : size b h = (Ok (m_block_size cont), h).
Proof. rewrite size_run. apply block_size_run. Qed.

Lemma is_full_run :
  is_full b h = (Ok (m_active_amount blk =? m_block_size cont)%N, h).
Proof.
  unfold is_full, bind at 1, get_block. rewrite Hblk.
  unfold bind. by rewrite size_value.
Qed.

End Accessors.

(** ** The arrays: loads and stores *)

Lemma write_float_run h p arr i v :
  float_arrays h !! p = Some arr → N.to_nat i < length arr →
  write_float p i v h =
    (Ok tt, mkHeap (containers h) (blocks h)
              (<[p := <[N.to_nat i := Some v]> arr]> (float_arrays h))
              (vec3_arrays h) (mem_free h)).
Proof.
  intros Hp Hi. unfold write_float. rewrite Hp. by case_decide.
Qed.

Lemma write_float_out_of_bounds h p arr i v :
  float_arrays h !! p = Some arr → length arr ≤ N.to_nat i →
  write_float p i v h = (Undef, h).
Proof.
  intros Hp Hi. unfold write_float. rewrite Hp. case_decide; [lia | done].
Qed.

Lemma read_float_out_of_bounds h p arr i :
  float_arrays h !! p = Some arr → length arr ≤ N.to_nat i →
  read_float p i h = (Undef, h).
Proof.
  intros Hp Hi. unfold read_float. rewrite Hp.
  by rewrite (lookup_ge_None_2 arr (N.to_nat i)).
Qed.

Lemma write_vec3_out_of_bounds h p arr i v :
  vec3_arrays h !! p = Some arr → length arr ≤ N.to_nat i →
  write_vec3 p i v h = (Undef, h).
Proof.
  intros Hp Hi. unfold write_vec3. rewrite Hp. case_decide; [lia | done].
Qed.

Lemma read_vec3_out_of_bounds h p arr i :
  vec3_arrays h !! p = Some arr → length arr ≤ N.to_nat i →
  read_vec3 p i h = (Undef, h).
Proof.
  intros Hp Hi. unfold read_vec3. rewrite Hp.
  by rewrite (lookup_ge_None_2 arr (N.to_nat i)).
Qed.

(** ** ParticlesBlock: capacity and the active amount *)

(** C7.  [is_full()] answers true exactly when the active amount equals the
    block size of the owning container: it is true after the active amount is
    set to the block size and false after it is set to anything strictly
    below. *)
Theorem is_full_iff h b blk cont :
  blocks h !! b = Some blk →
  containers h !! m_container blk = Some cont →
  (∃ full, is_full b h = (Ok full, h)
     ∧ (full = true ↔ m_active_amount blk = m_block_size cont))
  ∧ (∃ h', set_active_amount b (m_block_size cont) h = (Ok tt, h')
     ∧ is_full b h' = (Ok true, h'))
  ∧ (∀ n, (n < m_block_size cont)%N →
     ∃ h', set_active_amount b n h = (Ok tt, h')
           ∧ is_full b h' = (Ok false, h')).
Proof.
  intros Hblk Hcont. split; [|split].
  - eexists. split; [by apply is_full_run|]. apply N.eqb_eq.
  - eexists. split; [by apply set_active_amount_run|].
    erewrite is_full_run; [| apply lookup_insert_eq | exact Hcont].
    cbn. by rewrite N.eqb_refl.
  - intros n Hn. eexists. split; [by apply set_active_amount_run|].
    erewrite is_full_run; [| apply lookup_insert_eq | exact Hcont].
    cbn. by rewrite (proj2 (N.eqb_neq n _)); [|lia].
Qed.

Lemma is_full_iff_witness :
  blocks demo_store !! 1%positive = Some demo_block
  ∧ containers demo_store !! 1%positive = Some (demo_schema {[1%positive]})
  ∧ is_full 1 demo_store = (Ok false, demo_store)
  ∧ ∃ h', set_active_amount 1 4 demo_store = (Ok tt, h')
      ∧ is_full 1 h' = (Ok true, h').
Proof.
  split; [reflexivity|]. split; [reflexivity|].
  destruct (is_full_iff demo_store 1 demo_block (demo_schema {[1%positive]})
              eq_refl eq_refl) as ((full & Hrun & Hiff) & Hset & _).
  split; [|exact Hset].
  destruct full; [|exact Hrun]. by destruct (proj1 Hiff eq_refl).
Defined.

(** C8.  [clear()] sets the active amount to 0 and nothing else: the attribute
    arrays, the block's buffer vectors and its container reference, its
    capacity, every other block, every container with its live-block set and
    the allocator are as before. *)
Theorem clear_frame h b blk :
  blocks h !! b = Some blk →
  ∃ h', clear b h = (Ok tt, h')
    ∧ active_amount b h' = (Ok 0%N, h')
    ∧ float_arrays h' = float_arrays h
    ∧ vec3_arrays h' = vec3_arrays h
    ∧ float_buffers b h' = (Ok (m_float_buffers blk), h')
    ∧ vec3_buffers b h' = (Ok (m_vec3_buffers blk), h')
    ∧ container b h' = (Ok (m_container blk), h')
    ∧ fst (size b h') = fst (size b h)
    ∧ containers h' = containers h
    ∧ (∀ c, fst (active_blocks c h') = fst (active_blocks c h))
    ∧ dom (blocks h') = dom (blocks h)
    ∧ (∀ b', b' ≠ b → blocks h' !! b' = blocks h !! b')
    ∧ mem_free h' = mem_free h.
Proof.
  intros Hblk. eexists. split.
  { rewrite (clear_run h b). by apply set_active_amount_run. }
  set (blk' := mkParticlesBlock _ _ _ _).
  set (h' := mkHeap _ _ _ _ _).
  assert (Hblk' : blocks h' !! b = Some blk') by apply lookup_insert_eq.
  split_and!.
  - by rewrite (active_amount_run h' b blk').
  - reflexivity.
  - reflexivity.
  - by rewrite (float_buffers_run h' b blk').
  - by rewrite (vec3_buffers_run h' b blk').
  - by rewrite (container_run h' b blk').
  - rewrite (size_run h' b blk'), (size_run h b blk); [|done..].
    cbn. unfold block_size, bind, get_container. cbn.
    by destruct (containers h !! m_container blk).
  - reflexivity.
  - intros c. unfold active_blocks, bind, get_container. cbn.
    by destruct (containers h !! c).
  - cbn. apply dom_insert_lookup_L. by exists blk.
  - intros b' Hne. cbn. by rewrite lookup_insert_ne.
  - reflexivity.
Qed.

Lemma clear_frame_witness :
  blocks demo_store !! 1%positive = Some demo_block
  ∧ ∃ h', clear 1 demo_store = (Ok tt, h')
      ∧ active_amount 1 h' = (Ok 0%N, h')
      ∧ float_arrays h' = float_arrays demo_store
      ∧ vec3_arrays h' = vec3_arrays demo_store
      ∧ containers h' = containers demo_store.
Proof.
  split; [reflexivity|].
  destruct (clear_frame demo_store 1 demo_block eq_refl)
    as (h' & Hrun & Hzero & Hf & Hv & _ & _ & _ & _ & Hc & _).
  by exists h'.
Defined.

(** C9.  [next_inactive_index()] returns the current active amount and leaves
    the store as it was.  Whatever amount the caller stores next is what the
    next call returns; after the caller's increment of an amount below
    [UINT_MAX] (the counter is a [uint], and every amount that respects the
    capacity of a block that is not full is below it) that is the prior
    amount plus one. *)
Theorem next_inactive_index_spec h b blk :
  blocks h !! b = Some blk →
  next_inactive_index b h = (Ok (m_active_amount blk), h)
  ∧ (∀ n, ∃ h', set_active_amount b n h = (Ok tt, h')
       ∧ next_inactive_index b h' = (Ok n, h'))
  ∧ ((m_active_amount blk < UINT_MAX)%N →
     ∃ h', increment_active_amount b h = (Ok tt, h')
       ∧ next_inactive_index b h' = (Ok (m_active_amount blk + 1)%N, h')).
Proof.
  intros Hblk. split_and!.
  - by apply next_inactive_index_run.
  - intros n. eexists. split; [by apply set_active_amount_run|].
    by erewrite next_inactive_index_run; [|apply lookup_insert_eq].
  - intros Hlt. eexists. split.
    { rewrite (increment_active_amount_run h b blk Hblk).
      by apply set_active_amount_run. }
    erewrite next_inactive_index_run; [|apply lookup_insert_eq].
    cbn. unfold uint_wrap. rewrite N.mod_small; [done|].
    unfold UINT_MAX in *. lia.
Qed.

Lemma next_inactive_index_spec_witness :
  blocks demo_store !! 1%positive = Some demo_block
  ∧ next_inactive_index 1 demo_store = (Ok 0%N, demo_store)
  ∧ ∃ h', increment_active_amount 1 demo_store = (Ok tt, h')
      ∧ next_inactive_index 1 h' = (Ok 1%N, h').
Proof.
  split; [reflexivity|].
  destruct (next_inactive_index_spec demo_store 1 demo_block eq_refl)
    as (Hnow & _ & Hnext).
  split; [exact Hnow|]. apply Hnext. vm_compute. reflexivity.
Defined.

(** The increment of a [uint]: at [UINT_MAX] it wraps to 0. *)
Lemma increment_active_amount_wraps h b blk :
  blocks h !! b = Some blk → m_active_amount blk = UINT_MAX →
  ∃ h', increment_active_amount b h = (Ok tt, h')
    ∧ next_inactive_index b h' = (Ok 0%N, h').
Proof.
  intros Hblk Hmax. eexists. split.
  { rewrite (increment_active_amount_run h b blk Hblk).
    by apply set_active_amount_run. }
  erewrite next_inactive_index_run; [|apply lookup_insert_eq].
  cbn. by rewrite Hmax.
Qed.

(** C10.  A block has no capacity of its own.  [size()] is the block size of
    the owning container, whatever the block's active amount is set to, so
    two blocks of one container have the same capacity and [is_full()]
    compares the active amount with the container's value.  When the block is full, [next_inactive_index()] is that block
    size: it is not below the capacity, and a load or store at it is past the
    end of every attribute array of the block. *)
Theorem size_is_container_block_size h b blk cont :
  blocks h !! b = Some blk →
  containers h !! m_container blk = Some cont →
  size b h = block_size (m_container blk) h
  ∧ size b h = (Ok (m_block_size cont), h)
  ∧ (∀ n h', set_active_amount b n h = (Ok tt, h') →
       size b h' = (Ok (m_block_size cont), h'))
  ∧ (∀ b' blk', blocks h !! b' = Some blk' →
       m_container blk' = m_container blk → size b' h = size b h)
  ∧ is_full b h = (Ok (m_active_amount blk =? m_block_size cont)%N, h)
  ∧ (is_full b h = (Ok true, h) →
       next_inactive_index b h = (Ok (m_block_size cont), h)
       ∧ ¬ (m_block_size cont < m_block_size cont)%N
       ∧ (block_wf h b blk cont →
            (∀ p v, p ∈ m_float_buffers blk →
               read_float p (m_block_size cont) h = (Undef, h)
               ∧ write_float p (m_block_size cont) v h = (Undef, h))
            ∧ (∀ p v, p ∈ m_vec3_buffers blk →
               read_vec3 p (m_block_size cont) h = (Undef, h)
               ∧ write_vec3 p (m_block_size cont) v h = (Undef, h)))).
Proof.
  intros Hblk Hcont.
  assert (Hsize : size b h = (Ok (m_block_size cont), h))
    by exact (size_value h b blk Hblk cont Hcont).
  split; [exact (size_run h b blk Hblk)|]. split; [done|].
  split; [|split; [|split]].
  - intros n h'. rewrite (set_active_amount_run h b blk Hblk). intros [= <-].
    by apply (size_value _ b _ (lookup_insert_eq _ _ _) cont).
  - intros b' blk' Hblk' Hsame. rewrite Hsize.
    apply (size_value h b' blk' Hblk' cont). by rewrite Hsame.
  - by apply is_full_run.
  - rewrite (is_full_run h b blk Hblk cont Hcont).
    intros [= Hfull%N.eqb_eq]. split; [|split].
    + rewrite <- Hfull. by apply next_inactive_index_run.
    + lia.
    + intros Hwf. split.
      * intros p v Hp. destruct (bw_float_alloc _ _ _ _ Hwf p Hp) as (arr & Harr & Hlen).
        split.
        -- apply (read_float_out_of_bounds h p arr); [done | lia].
        -- apply (write_float_out_of_bounds h p arr); [done | lia].
      * intros p v Hp. destruct (bw_vec3_alloc _ _ _ _ Hwf p Hp) as (arr & Harr & Hlen).
        split.
        -- apply (read_vec3_out_of_bounds h p arr); [done | lia].
        -- apply (write_vec3_out_of_bounds h p arr); [done | lia].
Qed.

Lemma size_is_container_block_size_witness :
  blocks demo_store !! 1%positive = Some demo_block
  ∧ containers demo_store !! 1%positive = Some (demo_schema {[1%positive]})
  ∧ size 1 demo_store = (Ok 4%N, demo_store)
  ∧ is_full 1 demo_store = (Ok false, demo_store).
Proof.
  split; [reflexivity|]. split; [reflexivity|].
  destruct (size_is_container_block_size demo_store 1 demo_block
              (demo_schema {[1%positive]}) eq_refl eq_refl)
    as (_ & Hsize & _ & _ & Hfull & _).
  by split.
Defined.

(** ** The schema: names and indices *)

Lemma index_from_unknown i names name :
  name ∉ names → SmallSetVector.index_from i names name = Err UnknownAttribute.
Proof.
  revert i. induction names as [|n rest IH]; intros i Hnot; [done|].
  cbn. apply not_elem_of_cons in Hnot as [Hne Hrest].
  case_decide; [congruence|]. by apply IH.
Qed.

Lemma index_from_Ok i names name k :
  SmallSetVector.index_from i names name = Ok k →
  ∃ j, k = (i + N.of_nat j)%N ∧ names !! j = Some name.
Proof.
  revert i. induction names as [|n rest IH]; intros i; [done|].
  cbn. case_decide as Heq.
  - intros [= <-]. exists 0. split; [lia | by rewrite Heq].
  - intros (j & -> & Hj)%IH. exists (S j). split; [lia | done].
Qed.

Lemma index_from_position i names name j :
  NoDup names → names !! j = Some name →
  SmallSetVector.index_from i names name = Ok (i + N.of_nat j)%N.
Proof.
  revert i j. induction names as [|n rest IH]; intros i j Hnd Hj; [done|].
  apply NoDup_cons in Hnd as [Hn Hnd]. cbn. destruct j as [|j]; cbn in Hj.
  - injection Hj as ->. rewrite decide_True by done. f_equal. lia.
  - rewrite decide_False.
    + rewrite (IH (N.succ i) j Hnd Hj). f_equal. lia.
    + intros ->. apply Hn. by apply list_elem_of_lookup_2 in Hj.
Qed.

Lemma index_position names name j :
  NoDup names → names !! j = Some name →
  SmallSetVector.index names name = Ok (N.of_nat j).
Proof.
  intros Hnd Hj. unfold SmallSetVector.index.
  by rewrite (index_from_position 0 names name j).
Qed.

Lemma index_in_range names name k :
  SmallSetVector.index names name = Ok k →
  names !! N.to_nat k = Some name.
Proof.
  intros (j & -> & Hj)%index_from_Ok. by rewrite N.add_0_l, Nat2N.id.
Qed.

Lemma index_registered names name :
  name ∈ names → ∃ k, SmallSetVector.index names name = Ok k.
Proof.
  unfold SmallSetVector.index. generalize 0%N.
  induction names as [|n rest IH]; intros i Hin; [by apply elem_of_nil in Hin|].
  cbn. case_decide as Heq; [by eexists|].
  apply elem_of_cons in Hin as [->|Hin]; [done|]. by apply IH.
Qed.

Section Schema.

Context (h : Heap) (c : addr) (cont : ParticlesContainer).
Hypothesis Hcont : containers h !! c = Some cont.

Lemma float_buffer_index_run name :
  float_buffer_index c name h =
    (SmallSetVector.index (m_float_attribute_names cont) name, h).
Proof. unfold float_buffer_index, bind, get_container, lift. by rewrite Hcont. Qed.

Lemma vec3_buffer_index_run name :
  vec3_buffer_index c name h =
    (SmallSetVector.index (m_vec3_attribute_names cont) name, h).
Proof. unfold vec3_buffer_index, bind, get_container, lift. by rewrite Hcont. Qed.

Lemma active_blocks_run : active_blocks c h = (Ok (m_blocks cont), h).
Proof. unfold active_blocks, bind, get_container, ret. by rewrite Hcont. Qed.

Lemma float_attribute_amount_run :
  float_attribute_amount c h =
    (Ok (N.of_nat (length (m_float_attribute_names cont))), h).
Proof. unfold float_attribute_amount, bind, get_container, ret. by rewrite Hcont. Qed.

Lemma vec3_attribute_amount_run :
  vec3_attribute_amount c h =
    (Ok (N.of_nat (length (m_vec3_attribute_names cont))), h).
Proof. unfold vec3_attribute_amount, bind, get_container, ret. by rewrite Hcont. Qed.

Context (b : addr) (blk : ParticlesBlock).
Hypothesis Hblk : blocks h !! b = Some blk.
Hypothesis Hown : m_container blk = c.

Lemma float_buffer_run name :
  float_buffer b name h =
    match SmallSetVector.index (m_float_attribute_names cont) name with
    | Ok index =>
        match m_float_buffers blk !! N.to_nat index with
        | Some p => (Ok p, h)
        | None => (Undef, h)
        end
    | Err e => (Err e, h)
    | Undef => (Undef, h)
    end.
Proof.
  unfold float_buffer, bind at 1, get_block. rewrite Hblk, Hown.
  unfold bind. rewrite float_buffer_index_run.
  destruct (SmallSetVector.index _ _) as [k| |]; [|done..].
  unfold subscript, ret, undefined. by destruct (_ !! N.to_nat k).
Qed.

Lemma vec3_buffer_run name :
  vec3_buffer b name h =
    match SmallSetVector.index (m_vec3_attribute_names cont) name with
    | Ok index =>
        match m_vec3_buffers blk !! N.to_nat index with
        | Some p => (Ok p, h)
        | None => (Undef, h)
        end
    | Err e => (Err e, h)
    | Undef => (Undef, h)
    end.
Proof.
  unfold vec3_buffer, bind at 1, get_block. rewrite Hblk, Hown.
  unfold bind. rewrite vec3_buffer_index_run.
  destruct (SmallSetVector.index _ _) as [k| |]; [|done..].
  unfold subscript, ret, undefined. by destruct (_ !! N.to_nat k).
Qed.

End Schema.

(** C3.  A name that is not registered in the schema is an [UnknownAttribute]
    failure of [float_buffer_index] and of [vec3_buffer_index], never an
    index, and [float_buffer] and [vec3_buffer] of every block of the
    container fail the same way.  The store is untouched. *)
Theorem unknown_attribute h c cont name :
  containers h !! c = Some cont →
  (name ∉ m_float_attribute_names cont →
     float_buffer_index c name h = (Err UnknownAttribute, h)
     ∧ ∀ b blk, blocks h !! b = Some blk → m_container blk = c →
         float_buffer b name h = (Err UnknownAttribute, h))
  ∧ (name ∉ m_vec3_attribute_names cont →
     vec3_buffer_index c name h = (Err UnknownAttribute, h)
     ∧ ∀ b blk, blocks h !! b = Some blk → m_container blk = c →
         vec3_buffer b name h = (Err UnknownAttribute, h)).
Proof.
  intros Hcont. split; intros Hnot.
  - split.
    + rewrite (float_buffer_index_run h c cont Hcont).
      unfold SmallSetVector.index. by rewrite index_from_unknown.
    + intros b blk Hblk Hown.
      rewrite (float_buffer_run h c cont Hcont b blk Hblk Hown).
      unfold SmallSetVector.index. by rewrite index_from_unknown.
  - split.
    + rewrite (vec3_buffer_index_run h c cont Hcont).
      unfold SmallSetVector.index. by rewrite index_from_unknown.
    + intros b blk Hblk Hown.
      rewrite (vec3_buffer_run h c cont Hcont b blk Hblk Hown).
      unfold SmallSetVector.index. by rewrite index_from_unknown.
Qed.

Lemma unknown_attribute_witness :
  containers demo_store !! 1%positive = Some (demo_schema {[1%positive]})
  ∧ float_buffer_index 1 "unknown" demo_store = (Err UnknownAttribute, demo_store)
  ∧ float_buffer 1 "unknown" demo_store = (Err UnknownAttribute, demo_store)
  ∧ vec3_buffer_index 1 "mass" demo_store = (Err UnknownAttribute, demo_store)
  ∧ vec3_buffer 1 "mass" demo_store = (Err UnknownAttribute, demo_store).
Proof.
  split; [reflexivity|].
  destruct (unknown_attribute demo_store 1 (demo_schema {[1%positive]})
              "unknown" eq_refl) as [Hfloat _].
  destruct (unknown_attribute demo_store 1 (demo_schema {[1%positive]})
              "mass" eq_refl) as [_ Hvec3].
  destruct Hfloat as [Hfi Hfb]; [by_evaluation|].
  destruct Hvec3 as [Hvi Hvb]; [by_evaluation|].
  split; [exact Hfi|]. split; [exact (Hfb 1%positive demo_block eq_refl eq_refl)|].
  split; [exact Hvi|]. exact (Hvb 1%positive demo_block eq_refl eq_refl).
Defined.

(** ** Construction *)

Lemma construct_run h bs fn vn :
  bs ≠ 0%N → NoDup fn → NoDup vn →
  construct bs fn vn h =
    (Ok (fresh (dom (containers h))),
     mkHeap (<[fresh (dom (containers h)) := mkParticlesContainer bs fn vn ∅]>
               (containers h))
            (blocks h) (float_arrays h) (vec3_arrays h) (mem_free h)).
Proof.
  intros Hbs Hfn Hvn. unfold construct.
  by rewrite decide_False, !decide_True.
Qed.

Lemma construct_Ok h bs fn vn c h' :
  construct bs fn vn h = (Ok c, h') →
  bs ≠ 0%N ∧ NoDup fn ∧ NoDup vn
  ∧ c = fresh (dom (containers h))
  ∧ h' = mkHeap (<[c := mkParticlesContainer bs fn vn ∅]> (containers h))
                (blocks h) (float_arrays h) (vec3_arrays h) (mem_free h).
Proof.
  unfold construct. repeat case_decide; try done.
  by intros [= <- <-].
Qed.

Lemma construct_fresh h bs fn vn c h' :
  construct bs fn vn h = (Ok c, h') → containers h !! c = None.
Proof.
  intros (_ & _ & _ & -> & _)%construct_Ok.
  apply not_elem_of_dom, is_fresh.
Qed.

(** C2.  Construction fails with [ConfigError] when the block size is 0 or
    one of the two name lists has a duplicate and leaves the store as it was;
    on every other input it succeeds, at an address not in use, and the new
    container answers each name with its position in the list it came from. *)
Theorem construct_spec h bs fn vn :
  (bs = 0%N ∨ ¬ NoDup fn ∨ ¬ NoDup vn →
     construct bs fn vn h = (Err ConfigError, h))
  ∧ (bs ≠ 0%N → NoDup fn → NoDup vn →
     ∃ c h', construct bs fn vn h = (Ok c, h')
       ∧ containers h !! c = None
       ∧ block_size c h' = (Ok bs, h')
       ∧ active_blocks c h' = (Ok ∅, h')
       ∧ float_attribute_amount c h' = (Ok (N.of_nat (length fn)), h')
       ∧ vec3_attribute_amount c h' = (Ok (N.of_nat (length vn)), h')
       ∧ (∀ i name, fn !! i = Some name →
            float_buffer_index c name h' = (Ok (N.of_nat i), h'))
       ∧ (∀ i name, vn !! i = Some name →
            vec3_buffer_index c name h' = (Ok (N.of_nat i), h'))).
Proof.
  split.
  - intros [Hbs|[Hfn|Hvn]]; unfold construct; repeat case_decide; done.
  - intros Hbs Hfn Hvn. eexists _, _.
    split; [by apply construct_run|].
    set (c := fresh (dom (containers h))).
    set (cont := mkParticlesContainer bs fn vn ∅).
    set (h' := mkHeap _ _ _ _ _).
    assert (Hc : containers h' !! c = Some cont) by apply lookup_insert_eq.
    split_and!.
    + apply not_elem_of_dom, is_fresh.
    + unfold block_size, bind, get_container, ret. by rewrite Hc.
    + by rewrite (active_blocks_run h' c cont).
    + by rewrite (float_attribute_amount_run h' c cont).
    + by rewrite (vec3_attribute_amount_run h' c cont).
    + intros i name Hi. rewrite (float_buffer_index_run h' c cont Hc).
      unfold cont. cbn [m_float_attribute_names].
      by rewrite (index_position fn name i).
    + intros i name Hi. rewrite (vec3_buffer_index_run h' c cont Hc).
      unfold cont. cbn [m_vec3_attribute_names].
      by rewrite (index_position vn name i).
Qed.

(** ** Allocation and release *)

Lemma alloc_arrays_spec {A} count len (arrays : gmap positive (list (option A)))
    ps arrays' :
  alloc_arrays count len arrays = (ps, arrays') →
  length ps = count
  ∧ NoDup ps
  ∧ (∀ p, p ∈ ps →
       arrays !! p = None ∧ arrays' !! p = Some (replicate len None))
  ∧ (∀ q, q ∉ ps → arrays' !! q = arrays !! q).
Proof.
  revert arrays ps arrays'.
  induction count as [|count IH]; intros arrays ps arrays'; cbn.
  - intros [= <- <-]. split_and!; [done | constructor | | done].
    intros p Hp. by apply elem_of_nil in Hp.
  - set (p0 := fresh (dom arrays)).
    destruct (alloc_arrays count len (<[p0 := replicate len None]> arrays))
      as [ps0 arrays0] eqn:Hrec.
    intros [= <- <-].
    destruct (IH _ _ _ Hrec) as (Hlen & Hnd & Hnew & Hold).
    assert (Hp0 : arrays !! p0 = None) by apply not_elem_of_dom, is_fresh.
    assert (Hp0' : p0 ∉ ps0).
    { intros Hin. destruct (Hnew _ Hin) as [Hnone _].
      by rewrite lookup_insert_eq in Hnone. }
    split_and!.
    + cbn. lia.
    + by constructor.
    + intros p [->|Hp]%elem_of_cons.
      * split; [done|]. rewrite Hold by done. apply lookup_insert_eq.
      * destruct (Hnew p Hp) as [Hnone Hsome]. split; [|done].
        destruct (decide (p = p0)) as [->|Hne]; [done|].
        by rewrite lookup_insert_ne in Hnone.
    + intros q [Hne Hq]%not_elem_of_cons.
      rewrite Hold by done. by rewrite lookup_insert_ne.
Qed.

Lemma lookup_free_arrays_ne {A} ps (arrays : gmap positive (list (option A))) q :
  q ∉ ps → free_arrays ps arrays !! q = arrays !! q.
Proof.
  induction ps as [|p ps IH]; [done|].
  intros [Hne Hq]%not_elem_of_cons. cbn.
  rewrite lookup_delete_ne by done. by apply IH.
Qed.

Lemma lookup_free_arrays {A} ps (arrays : gmap positive (list (option A))) p :
  p ∈ ps → free_arrays ps arrays !! p = None.
Proof.
  induction ps as [|p0 ps IH]; [by intros ?%elem_of_nil|].
  intros Hin. cbn. destruct (decide (p0 = p)) as [->|Hne].
  - apply lookup_delete_eq.
  - rewrite lookup_delete_ne by done. apply IH.
    apply elem_of_cons in Hin as [->|Hin]; done.
Qed.

Lemma new_block_Ok h c b h' :
  new_block c h = (Ok b, h') →
  ∃ cont fbufs vbufs farrays varrays,
    containers h !! c = Some cont
    ∧ (block_cost cont ≤ mem_free h)%N
    ∧ alloc_arrays (length (m_float_attribute_names cont))
        (N.to_nat (m_block_size cont)) (float_arrays h) = (fbufs, farrays)
    ∧ alloc_arrays (length (m_vec3_attribute_names cont))
        (N.to_nat (m_block_size cont)) (vec3_arrays h) = (vbufs, varrays)
    ∧ b = fresh (dom (blocks h))
    ∧ h' = mkHeap (<[c := with_blocks cont ({[b]} ∪ m_blocks cont)]> (containers h))
                  (<[b := mkParticlesBlock c fbufs vbufs 0]> (blocks h))
                  farrays varrays (mem_free h - block_cost cont).
Proof.
  unfold new_block. destruct (containers h !! c) as [cont|]; [|done].
  case_decide as Hmem; [|done].
  destruct (alloc_arrays _ _ (float_arrays h)) as [fbufs farrays] eqn:Hf.
  destruct (alloc_arrays _ _ (vec3_arrays h)) as [vbufs varrays] eqn:Hv.
  intros [= <- <-]. by exists cont, fbufs, vbufs, farrays, varrays.
Qed.

Lemma new_block_total h c cont :
  containers h !! c = Some cont →
  (block_cost cont ≤ mem_free h)%N →
  ∃ b h', new_block c h = (Ok b, h').
Proof.
  intros Hcont Hmem. unfold new_block. rewrite Hcont, decide_True by done.
  destruct (alloc_arrays _ _ (float_arrays h)) as [fbufs farrays].
  destruct (alloc_arrays _ _ (vec3_arrays h)) as [vbufs varrays].
  by eexists _, _.
Qed.

Lemma new_block_out_of_memory h c cont :
  containers h !! c = Some cont →
  (mem_free h < block_cost cont)%N →
  new_block c h = (Err OutOfMemory, h).
Proof.
  intros Hcont Hmem. unfold new_block. rewrite Hcont, decide_False; [done | lia].
Qed.

Lemma new_block_Err h c e h' :
  new_block c h = (Err e, h') → e = OutOfMemory ∧ h' = h.
Proof.
  unfold new_block. destruct (containers h !! c) as [cont|]; [|done].
  case_decide; [|by intros [= <- <-]].
  destruct (alloc_arrays _ _ (float_arrays h)).
  by destruct (alloc_arrays _ _ (vec3_arrays h)).
Qed.

Lemma release_block_Ok h c b h' :
  release_block c b h = (Ok tt, h') →
  ∃ cont blk,
    containers h !! c = Some cont
    ∧ b ∈ m_blocks cont
    ∧ blocks h !! b = Some blk
    ∧ h' = mkHeap (<[c := with_blocks cont (m_blocks cont ∖ {[b]})]> (containers h))
                  (delete b (blocks h))
                  (free_arrays (m_float_buffers blk) (float_arrays h))
                  (free_arrays (m_vec3_buffers blk) (vec3_arrays h))
                  (mem_free h + block_cost cont).
Proof.
  unfold release_block. destruct (containers h !! c) as [cont|]; [|done].
  case_decide as Hin; [|done].
  destruct (blocks h !! b) as [blk|] eqn:Hblk; [|done].
  intros [= <-]. by exists cont, blk.
Qed.

Lemma release_block_not_owned h c cont b :
  containers h !! c = Some cont → b ∉ m_blocks cont →
  release_block c b h = (Err InvalidHandle, h).
Proof.
  intros Hcont Hnot. unfold release_block. by rewrite Hcont, decide_False.
Qed.

Lemma release_block_Err h c b e h' :
  release_block c b h = (Err e, h') → e = InvalidHandle ∧ h' = h.
Proof.
  unfold release_block. destruct (containers h !! c) as [cont|]; [|done].
  case_decide; [|by intros [= <- <-]].
  by destruct (blocks h !! b).
Qed.

Lemma release_block_owned h c cont b :
  heap_wf h → containers h !! c = Some cont → b ∈ m_blocks cont →
  ∃ h', release_block c b h = (Ok tt, h').
Proof.
  intros Hwf Hcont Hin.
  destruct (hw_owned h Hwf c cont b Hcont Hin) as (blk & Hblk & _).
  unfold release_block. rewrite Hcont, decide_True, Hblk by done. by eexists.
Qed.

(** ** The invariant holds in every reachable store *)

Lemma block_wf_frame h h' b blk blk' cont cont' :
  block_wf h b blk cont →
  (b ∈ m_blocks cont → b ∈ m_blocks cont') →
  m_block_size cont' = m_block_size cont →
  m_float_attribute_names cont' = m_float_attribute_names cont →
  m_vec3_attribute_names cont' = m_vec3_attribute_names cont →
  m_float_buffers blk' = m_float_buffers blk →
  m_vec3_buffers blk' = m_vec3_buffers blk →
  (∀ p arr, p ∈ m_float_buffers blk → float_arrays h !! p = Some arr →
     ∃ arr', float_arrays h' !! p = Some arr' ∧ length arr' = length arr) →
  (∀ p arr, p ∈ m_vec3_buffers blk → vec3_arrays h !! p = Some arr →
     ∃ arr', vec3_arrays h' !! p = Some arr' ∧ length arr' = length arr) →
  block_wf h' b blk' cont'.
Proof.
  intros [Hlive Hfc Hvc Hfa Hva Hfn Hvn] Hlive' Hbs Hfs Hvs Hfb Hvb Hf Hv.
  constructor; rewrite ?Hbs, ?Hfs, ?Hvs, ?Hfb, ?Hvb; try done.
  - by apply Hlive'.
  - intros p Hp. destruct (Hfa p Hp) as (arr & Harr & Hlen).
    destruct (Hf p arr Hp Harr) as (arr' & Harr' & Hlen').
    exists arr'. split; [done | congruence].
  - intros p Hp. destruct (Hva p Hp) as (arr & Harr & Hlen).
    destruct (Hv p arr Hp Harr) as (arr' & Harr' & Hlen').
    exists arr'. split; [done | congruence].
Qed.

Lemma heap_wf_empty budget : heap_wf (empty_heap budget).
Proof. constructor; cbn; intros *; by rewrite ?lookup_empty. Qed.

Lemma construct_wf h bs fn vn c h' :
  heap_wf h → construct bs fn vn h = (Ok c, h') → heap_wf h'.
Proof.
  intros [Hown Hblk Hfs Hvs] (_ & _ & _ & Hc & ->)%construct_Ok.
  assert (Hfresh : containers h !! c = None).
  { rewrite Hc. apply not_elem_of_dom, is_fresh. }
  constructor; cbn.
  - intros c0 cont0 b. destruct (decide (c = c0)) as [<-|Hne].
    + rewrite lookup_insert_eq. intros [= <-]. cbn. set_solver.
    + rewrite lookup_insert_ne by done. apply Hown.
  - intros b blk Hb. destruct (Hblk b blk Hb) as (cont & Hcont & Hwf).
    exists cont. split.
    + rewrite lookup_insert_ne; [done | congruence].
    + by eapply block_wf_frame; eauto.
  - apply Hfs.
  - apply Hvs.
Qed.

Lemma set_active_amount_wf h b n r h' :
  heap_wf h → set_active_amount b n h = (r, h') → r ≠ Undef → heap_wf h'.
Proof.
  intros Hwf Hrun Hdef.
  destruct (blocks h !! b) as [blk|] eqn:Hb.
  2:{ unfold set_active_amount, bind, get_block in Hrun. rewrite Hb in Hrun.
      by injection Hrun as <- <-. }
  rewrite (set_active_amount_run h b blk Hb) in Hrun. injection Hrun as <- <-.
  destruct Hwf as [Hown Hblk Hfs Hvs].
  set (blk' := mkParticlesBlock _ _ _ _).
  assert (Hback : ∀ b0 blk0,
    <[b := blk']> (blocks h) !! b0 = Some blk0 →
    ∃ blk1, blocks h !! b0 = Some blk1
            ∧ m_container blk0 = m_container blk1
            ∧ m_float_buffers blk0 = m_float_buffers blk1
            ∧ m_vec3_buffers blk0 = m_vec3_buffers blk1).
  { intros b0 blk0. destruct (decide (b = b0)) as [<-|Hne].
    - rewrite lookup_insert_eq. intros [= <-]. by exists blk.
    - rewrite lookup_insert_ne by done. intros ?. by exists blk0. }
  constructor; cbn.
  - intros c cont b0 Hc Hin. destruct (Hown c cont b0 Hc Hin) as (blk0 & Hb0 & Hc0).
    destruct (decide (b = b0)) as [<-|Hne].
    + exists blk'. rewrite lookup_insert_eq. split; [done|]. cbn. congruence.
    + exists blk0. by rewrite lookup_insert_ne.
  - intros b0 blk0 (blk1 & Hb1 & Hc1 & Hf1 & Hv1)%Hback.
    destruct (Hblk b0 blk1 Hb1) as (cont & Hcont & Hwf1).
    exists cont. split; [congruence|].
    eapply block_wf_frame; eauto.
  - intros b1 b2 blk1 blk2 p Hne (blk1' & Hb1 & _ & Hf1 & _)%Hback
      (blk2' & Hb2 & _ & Hf2 & _)%Hback.
    rewrite Hf1, Hf2. by eapply Hfs.
  - intros b1 b2 blk1 blk2 p Hne (blk1' & Hb1 & _ & _ & Hv1)%Hback
      (blk2' & Hb2 & _ & _ & Hv2)%Hback.
    rewrite Hv1, Hv2. by eapply Hvs.
Qed.

Lemma write_float_wf h p i v r h' :
  heap_wf h → write_float p i v h = (r, h') → r ≠ Undef → heap_wf h'.
Proof.
  intros [Hown Hblk Hfs Hvs]. unfold write_float.
  destruct (float_arrays h !! p) as [arr|] eqn:Hp; [|by intros [= <- <-]].
  case_decide as Hi; [|by intros [= <- <-]].
  intros [= <- <-] _. constructor; cbn; [done | | done | done].
  intros b blk Hb. destruct (Hblk b blk Hb) as (cont & Hcont & Hwf).
  exists cont. split; [done|].
  eapply block_wf_frame; eauto. cbn.
  intros q arr0 Hq Harr0. destruct (decide (p = q)) as [<-|Hne].
  - rewrite lookup_insert_eq. eexists. split; [done|].
    rewrite length_insert. congruence.
  - rewrite lookup_insert_ne by done. by exists arr0.
Qed.

Lemma write_vec3_wf h p i v r h' :
  heap_wf h → write_vec3 p i v h = (r, h') → r ≠ Undef → heap_wf h'.
Proof.
  intros [Hown Hblk Hfs Hvs]. unfold write_vec3.
  destruct (vec3_arrays h !! p) as [arr|] eqn:Hp; [|by intros [= <- <-]].
  case_decide as Hi; [|by intros [= <- <-]].
  intros [= <- <-] _. constructor; cbn; [done | | done | done].
  intros b blk Hb. destruct (Hblk b blk Hb) as (cont & Hcont & Hwf).
  exists cont. split; [done|].
  eapply block_wf_frame; eauto. cbn.
  intros q arr0 Hq Harr0. destruct (decide (p = q)) as [<-|Hne].
  - rewrite lookup_insert_eq. eexists. split; [done|].
    rewrite length_insert. congruence.
  - rewrite lookup_insert_ne by done. by exists arr0.
Qed.

Lemma owned_in_store h c cont b :
  heap_wf h → containers h !! c = Some cont → b ∈ m_blocks cont →
  is_Some (blocks h !! b).
Proof.
  intros Hwf Hc Hin. destruct (hw_owned h Hwf c cont b Hc Hin) as (blk & -> & _).
  by eexists.
Qed.

Lemma new_block_wf h c b h' :
  heap_wf h → new_block c h = (Ok b, h') → heap_wf h'.
Proof.
  intros Hwf (cont & fbufs & vbufs & farrays & varrays & Hcont & _ & Hfa
              & Hva & Hb & ->)%new_block_Ok.
  apply alloc_arrays_spec in Hfa as (Hflen & Hfnd & Hfnew & Hfold).
  apply alloc_arrays_spec in Hva as (Hvlen & Hvnd & Hvnew & Hvold).
  assert (Hfresh : blocks h !! b = None).
  { rewrite Hb. apply not_elem_of_dom, is_fresh. }
  pose proof Hwf as [Hown Hblk Hfs Hvs].
  set (blk' := mkParticlesBlock c fbufs vbufs 0).
  set (cont' := with_blocks cont ({[b]} ∪ m_blocks cont)).
  (* an array of a block of the old store is not one of the new arrays *)
  assert (Hfkeep : ∀ b0 blk0 p, blocks h !! b0 = Some blk0 →
            p ∈ m_float_buffers blk0 → p ∉ fbufs).
  { intros b0 blk0 p Hb0 Hp Hin. destruct (Hblk b0 blk0 Hb0) as (? & _ & Hw).
    destruct (bw_float_alloc _ _ _ _ Hw p Hp) as (arr & Harr & _).
    destruct (Hfnew p Hin) as [Hnone _]. congruence. }
  assert (Hvkeep : ∀ b0 blk0 p, blocks h !! b0 = Some blk0 →
            p ∈ m_vec3_buffers blk0 → p ∉ vbufs).
  { intros b0 blk0 p Hb0 Hp Hin. destruct (Hblk b0 blk0 Hb0) as (? & _ & Hw).
    destruct (bw_vec3_alloc _ _ _ _ Hw p Hp) as (arr & Harr & _).
    destruct (Hvnew p Hin) as [Hnone _]. congruence. }
  constructor; cbn.
  - intros c0 cont0 b0 Hc0 Hin.
    assert (Hcases : b0 = b ∧ c0 = c
                     ∨ ∃ cont1, containers h !! c0 = Some cont1 ∧ b0 ∈ m_blocks cont1).
    { destruct (decide (c = c0)) as [<-|Hne].
      - rewrite lookup_insert_eq in Hc0. injection Hc0 as <-. cbn in Hin.
        apply elem_of_union in Hin as [->%elem_of_singleton|Hin]; [by left|].
        right. by exists cont.
      - rewrite lookup_insert_ne in Hc0 by done. right. by exists cont0. }
    destruct Hcases as [[-> ->]|(cont1 & Hc1 & Hin1)].
    + exists blk'. by rewrite lookup_insert_eq.
    + destruct (Hown c0 cont1 b0 Hc1 Hin1) as (blk0 & Hb0 & Hc).
      exists blk0. split; [|done]. rewrite lookup_insert_ne; [done | congruence].
  - intros b0 blk0. destruct (decide (b = b0)) as [<-|Hne].
    + rewrite lookup_insert_eq. intros [= <-]. exists cont'. cbn.
      split; [apply lookup_insert_eq|].
      constructor; cbn; try done.
      * apply elem_of_union. left. by apply elem_of_singleton.
      * intros p Hp. destruct (Hfnew p Hp) as [_ Hsome].
        eexists. split; [done|]. by rewrite length_replicate.
      * intros p Hp. destruct (Hvnew p Hp) as [_ Hsome].
        eexists. split; [done|]. by rewrite length_replicate.
    + rewrite lookup_insert_ne by done. intros Hb0.
      destruct (Hblk b0 blk0 Hb0) as (cont0 & Hcont0 & Hw).
      destruct (decide (c = m_container blk0)) as [Hc|Hc].
      * exists cont'. split; [rewrite <- Hc; apply lookup_insert_eq|].
        assert (cont0 = cont) as -> by congruence.
        eapply block_wf_frame; eauto; cbn.
        -- intros ?. apply elem_of_union. by right.
        -- intros p arr Hp Harr. exists arr. split; [|done].
           rewrite Hfold; [done | by eapply Hfkeep].
        -- intros p arr Hp Harr. exists arr. split; [|done].
           rewrite Hvold; [done | by eapply Hvkeep].
      * exists cont0. split; [by rewrite lookup_insert_ne|].
        eapply block_wf_frame; eauto; cbn.
        -- intros p arr Hp Harr. exists arr. split; [|done].
           rewrite Hfold; [done | by eapply Hfkeep].
        -- intros p arr Hp Harr. exists arr. split; [|done].
           rewrite Hvold; [done | by eapply Hvkeep].
  - intros b1 b2 blk1 blk2 p Hne.
    destruct (decide (b = b1)) as [<-|Hne1];
      [rewrite lookup_insert_eq | rewrite lookup_insert_ne by done];
      (destruct (decide (b = b2)) as [<-|Hne2];
       [rewrite lookup_insert_eq | rewrite lookup_insert_ne by done]);
      try done.
    + intros [= <-] Hb2 Hp Hp2. cbn in Hp. by eapply Hfkeep.
    + intros Hb1 [= <-] Hp Hp2. cbn in Hp2. by eapply Hfkeep.
    + by apply Hfs.
  - intros b1 b2 blk1 blk2 p Hne.
    destruct (decide (b = b1)) as [<-|Hne1];
      [rewrite lookup_insert_eq | rewrite lookup_insert_ne by done];
      (destruct (decide (b = b2)) as [<-|Hne2];
       [rewrite lookup_insert_eq | rewrite lookup_insert_ne by done]);
      try done.
    + intros [= <-] Hb2 Hp Hp2. cbn in Hp. by eapply Hvkeep.
    + intros Hb1 [= <-] Hp Hp2. cbn in Hp2. by eapply Hvkeep.
    + by apply Hvs.
Qed.

Lemma release_block_wf h c b h' :
  heap_wf h → release_block c b h = (Ok tt, h') → heap_wf h'.
Proof.
  intros Hwf (cont & blk & Hcont & Hin & Hb & ->)%release_block_Ok.
  pose proof Hwf as [Hown Hblk Hfs Hvs].
  destruct (Hown c cont b Hcont Hin) as (blk_ & Hb_ & Hbc).
  assert (blk_ = blk) as -> by congruence. clear Hb_.
  set (cont' := with_blocks cont (m_blocks cont ∖ {[b]})).
  constructor; cbn.
  - intros c0 cont0 b0 Hc0 Hin0.
    assert (Hold : ∃ cont1, containers h !! c0 = Some cont1
                            ∧ b0 ∈ m_blocks cont1 ∧ b0 ≠ b).
    { destruct (decide (c = c0)) as [<-|Hne].
      - rewrite lookup_insert_eq in Hc0. injection Hc0 as <-. cbn in Hin0.
        exists cont. apply elem_of_difference in Hin0 as [Hin0 Hnb].
        split_and!; [done..|]. intros ->. apply Hnb. by apply elem_of_singleton.
      - rewrite lookup_insert_ne in Hc0 by done. exists cont0.
        split_and!; [done..|]. intros ->.
        destruct (Hown c0 cont0 b Hc0 Hin0) as (blk0 & Hb0 & Hbc0). congruence. }
    destruct Hold as (cont1 & Hc1 & Hin1 & Hne).
    destruct (Hown c0 cont1 b0 Hc1 Hin1) as (blk0 & Hb0 & Hbc0).
    exists blk0. by rewrite lookup_delete_ne.
  - intros b0 blk0. destruct (decide (b = b0)) as [<-|Hne].
    { by rewrite lookup_delete_eq. }
    rewrite lookup_delete_ne by done. intros Hb0.
    destruct (Hblk b0 blk0 Hb0) as (cont0 & Hcont0 & Hw).
    assert (Hfkeep : ∀ p arr, p ∈ m_float_buffers blk0 →
              float_arrays h !! p = Some arr →
              ∃ arr', free_arrays (m_float_buffers blk) (float_arrays h) !! p
                      = Some arr' ∧ length arr' = length arr).
    { intros p arr Hp Harr. exists arr. split; [|done].
      rewrite lookup_free_arrays_ne; [done|]. by eapply (Hfs b0 b). }
    assert (Hvkeep : ∀ p arr, p ∈ m_vec3_buffers blk0 →
              vec3_arrays h !! p = Some arr →
              ∃ arr', free_arrays (m_vec3_buffers blk) (vec3_arrays h) !! p
                      = Some arr' ∧ length arr' = length arr).
    { intros p arr Hp Harr. exists arr. split; [|done].
      rewrite lookup_free_arrays_ne; [done|]. by eapply (Hvs b0 b). }
    destruct (decide (c = m_container blk0)) as [Hc|Hc].
    + exists cont'. split; [rewrite <- Hc; apply lookup_insert_eq|].
      assert (cont0 = cont) as -> by congruence.
      eapply block_wf_frame; eauto; cbn.
      intros ?. apply elem_of_difference. split; [done|].
      by intros ?%elem_of_singleton.
    + exists cont0. split; [by rewrite lookup_insert_ne|].
      eapply block_wf_frame; eauto.
  - intros b1 b2 blk1 blk2 p Hne Hb1 Hb2.
    apply lookup_delete_Some in Hb1 as [_ Hb1].
    apply lookup_delete_Some in Hb2 as [_ Hb2]. by eapply Hfs.
  - intros b1 b2 blk1 blk2 p Hne Hb1 Hb2.
    apply lookup_delete_Some in Hb1 as [_ Hb1].
    apply lookup_delete_Some in Hb2 as [_ Hb2]. by eapply Hvs.
Qed.

Lemma step_wf h h' : heap_wf h → step h h' → heap_wf h'.
Proof.
  intros Hwf [call r Hrun Hdef]. destruct call as [bs fn vn|c0|c0 b0|b0 n|b0|p i v|p i v]; cbn in Hrun.
  - unfold discard, bind, ret in Hrun.
    destruct (construct _ _ _ h) as [[c| |] h1] eqn:Hc; injection Hrun as <- <-.
    + by eapply construct_wf.
    + unfold construct in Hc. by repeat case_decide; simplify_eq.
    + done.
  - unfold discard, bind, ret in Hrun.
    destruct (new_block _ h) as [[b|e|] h1] eqn:Hb; injection Hrun as <- <-.
    + by eapply new_block_wf.
    + by apply new_block_Err in Hb as [_ ->].
    + done.
  - destruct r as [[]|e|]; [| |done].
    + by eapply release_block_wf.
    + by apply release_block_Err in Hrun as [_ ->].
  - by eapply set_active_amount_wf.
  - by eapply (set_active_amount_wf h b0 0).
  - by eapply write_float_wf.
  - by eapply write_vec3_wf.
Qed.

Lemma reachable_wf h : reachable h → heap_wf h.
Proof.
  intros [budget Hsteps]. revert h Hsteps.
  apply rtc_ind_r; [apply heap_wf_empty|].
  intros h1 h2 _ Hstep IH. by eapply step_wf.
Qed.

(** ** The schema never changes *)

Lemma put_block_containers b blk r h h' :
  put_block b blk h = (r, h') → containers h' = containers h.
Proof.
  unfold put_block. destruct (blocks h !! b); by intros [= <- <-].
Qed.

Lemma set_active_amount_containers b n r h h' :
  set_active_amount b n h = (r, h') → containers h' = containers h.
Proof.
  unfold set_active_amount, bind, get_block.
  destruct (blocks h !! b); [apply put_block_containers | by intros [= <- <-]].
Qed.

Lemma write_float_containers p i v r h h' :
  write_float p i v h = (r, h') → containers h' = containers h.
Proof.
  unfold write_float. destruct (float_arrays h !! p); [|by intros [= <- <-]].
  case_decide; by intros [= <- <-].
Qed.

Lemma write_vec3_containers p i v r h h' :
  write_vec3 p i v h = (r, h') → containers h' = containers h.
Proof.
  unfold write_vec3. destruct (vec3_arrays h !! p); [|by intros [= <- <-]].
  case_decide; by intros [= <- <-].
Qed.

Lemma same_schema_refl cont : same_schema cont cont.
Proof. done. Qed.

Lemma same_schema_trans cont1 cont2 cont3 :
  same_schema cont1 cont2 → same_schema cont2 cont3 → same_schema cont1 cont3.
Proof. intros (? & ? & ?) (? & ? & ?). split_and!; congruence. Qed.

Lemma step_schema h h' c cont :
  step h h' → containers h !! c = Some cont →
  ∃ cont', containers h' !! c = Some cont' ∧ same_schema cont cont'.
Proof.
  intros [call r Hrun Hdef] Hcont.
  assert (Hsame : containers h' = containers h →
            ∃ cont', containers h' !! c = Some cont' ∧ same_schema cont cont').
  { intros ->. by exists cont. }
  destruct call as [bs fn vn|c0|c0 b0|b0 n|b0|p i v|p i v]; cbn in Hrun.
  - unfold discard, bind, ret in Hrun.
    destruct (construct _ _ _ h) as [[c1| |] h1] eqn:Hc; injection Hrun as <- <-.
    + pose proof (construct_fresh _ _ _ _ _ _ Hc) as Hfresh.
      apply construct_Ok in Hc as (_ & _ & _ & _ & ->). cbn.
      exists cont. split; [|done]. rewrite lookup_insert_ne; [done | congruence].
    + apply Hsame. unfold construct in Hc. by repeat case_decide; simplify_eq.
    + done.
  - unfold discard, bind, ret in Hrun.
    destruct (new_block _ h) as [[b|e|] h1] eqn:Hb; injection Hrun as <- <-.
    + apply new_block_Ok in Hb
        as (cont0 & ? & ? & ? & ? & Hc0 & _ & _ & _ & _ & ->). cbn.
      destruct (decide (c0 = c)) as [->|Hne].
      * rewrite lookup_insert_eq. eexists. split; [done|].
        by assert (cont0 = cont) as -> by congruence.
      * rewrite lookup_insert_ne by done. by exists cont.
    + apply new_block_Err in Hb as [_ ->]. by apply Hsame.
    + done.
  - destruct r as [[]|e|]; [| |done].
    + apply release_block_Ok in Hrun as (cont0 & blk & Hc0 & _ & _ & ->). cbn.
      destruct (decide (c0 = c)) as [->|Hne].
      * rewrite lookup_insert_eq. eexists. split; [done|].
        by assert (cont0 = cont) as -> by congruence.
      * rewrite lookup_insert_ne by done. by exists cont.
    + apply release_block_Err in Hrun as [_ ->]. by apply Hsame.
  - by eapply Hsame, set_active_amount_containers.
  - by eapply Hsame, (set_active_amount_containers b0 0).
  - by eapply Hsame, write_float_containers.
  - by eapply Hsame, write_vec3_containers.
Qed.

Lemma steps_schema h h' c cont :
  rtc step h h' → containers h !! c = Some cont →
  ∃ cont', containers h' !! c = Some cont' ∧ same_schema cont cont'.
Proof.
  intros Hsteps. revert cont.
  induction Hsteps as [h|h1 h2 h3 Hstep _ IH]; intros cont Hcont.
  - by exists cont.
  - destruct (step_schema _ _ _ _ Hstep Hcont) as (cont2 & Hc2 & Hs2).
    destruct (IH cont2 Hc2) as (cont3 & Hc3 & Hs3).
    exists cont3. split; [done|]. by eapply same_schema_trans.
Qed.

(** C4.  In every store a program reaches after constructing a container,
    [float_buffer_index] and [vec3_buffer_index] answer a registered name with
    its position in the list given at construction, they leave the store as
    it was, and so a second call answers the same.  With the float names
    [mass], [age], the index of [mass] is 0 and the index of [age] is 1. *)
Theorem attribute_index_stable h0 bs fn vn c h1 h2 :
  construct bs fn vn h0 = (Ok c, h1) →
  rtc step h1 h2 →
  (∀ i name, fn !! i = Some name →
     float_buffer_index c name h2 = (Ok (N.of_nat i), h2)
     ∧ (let* i1 := float_buffer_index c name in
        let* i2 := float_buffer_index c name in
        ret (i1, i2)) h2 = (Ok (N.of_nat i, N.of_nat i), h2))
  ∧ (∀ i name, vn !! i = Some name →
     vec3_buffer_index c name h2 = (Ok (N.of_nat i), h2)
     ∧ (let* i1 := vec3_buffer_index c name in
        let* i2 := vec3_buffer_index c name in
        ret (i1, i2)) h2 = (Ok (N.of_nat i, N.of_nat i), h2))
  ∧ (fn = ["mass"; "age"] →
     float_buffer_index c "mass" h2 = (Ok 0%N, h2)
     ∧ float_buffer_index c "age" h2 = (Ok 1%N, h2)).
Proof.
  intros Hc Hsteps.
  apply construct_Ok in Hc as (_ & Hfn & Hvn & _ & ->).
  destruct (steps_schema _ _ c _ Hsteps (lookup_insert_eq _ _ _))
    as (cont & Hcont & _ & Hfs & Hvs).
  cbn in Hfs, Hvs.
  assert (Hfloat : ∀ i name, fn !! i = Some name →
            float_buffer_index c name h2 = (Ok (N.of_nat i), h2)).
  { intros i name Hi. rewrite (float_buffer_index_run h2 c cont Hcont), Hfs.
    by rewrite (index_position fn name i). }
  assert (Hvec3 : ∀ i name, vn !! i = Some name →
            vec3_buffer_index c name h2 = (Ok (N.of_nat i), h2)).
  { intros i name Hi. rewrite (vec3_buffer_index_run h2 c cont Hcont), Hvs.
    by rewrite (index_position vn name i). }
  split_and!.
  - intros i name Hi. split; [by apply Hfloat|].
    unfold bind at 1. rewrite (Hfloat i name Hi).
    unfold bind. by rewrite (Hfloat i name Hi).
  - intros i name Hi. split; [by apply Hvec3|].
    unfold bind at 1. rewrite (Hvec3 i name Hi).
    unfold bind. by rewrite (Hvec3 i name Hi).
  - intros ->. split; [by apply (Hfloat 0) | by apply (Hfloat 1)].
Qed.

Lemma demo_constructed_run :
  construct 4 ["mass"; "age"] ["position"] (empty_heap 1024)
  = (Ok 1%positive, demo_constructed).
Proof. vm_compute. reflexivity. Qed.

Lemma demo_store_run : new_block 1 demo_constructed = (Ok 1%positive, demo_store).
Proof. vm_compute. reflexivity. Qed.

Lemma demo_released_run : release_block 1 1 demo_store = (Ok tt, demo_released).
Proof. vm_compute. reflexivity. Qed.

Lemma demo_store_step : step demo_constructed demo_store.
Proof.
  by apply (step_call _ _ (CallNewBlock 1) (Ok tt)); [vm_compute|].
Qed.

Lemma demo_store_wf : heap_wf demo_store.
Proof.
  apply (step_wf demo_constructed); [|apply demo_store_step].
  apply (construct_wf _ _ _ _ _ _ (heap_wf_empty 1024) demo_constructed_run).
Qed.

Lemma demo_store_reachable : reachable demo_store.
Proof.
  exists 1024%N. eapply rtc_l; [|apply rtc_once, demo_store_step].
  by apply (step_call _ _ (CallConstruct 4 ["mass"; "age"] ["position"]) (Ok tt));
    [vm_compute|].
Qed.

Lemma attribute_index_stable_witness :
  construct 4 ["mass"; "age"] ["position"] (empty_heap 1024)
  = (Ok 1%positive, demo_constructed)
  ∧ rtc step demo_constructed demo_store
  ∧ float_buffer_index 1 "mass" demo_store = (Ok 0%N, demo_store)
  ∧ float_buffer_index 1 "age" demo_store = (Ok 1%N, demo_store)
  ∧ vec3_buffer_index 1 "position" demo_store = (Ok 0%N, demo_store).
Proof.
  split; [exact demo_constructed_run|].
  split; [exact (rtc_once _ _ demo_store_step)|].
  destruct (attribute_index_stable (empty_heap 1024) 4 ["mass"; "age"]
              ["position"] 1 demo_constructed demo_store demo_constructed_run
              (rtc_once _ _ demo_store_step)) as (_ & Hvec3 & Hfloat).
  destruct (Hfloat eq_refl) as [Hmass Hage].
  split; [exact Hmass|]. split; [exact Hage|].
  exact (proj1 (Hvec3 0 "position" eq_refl)).
Defined.

(** ** Releasing a block *)

Lemma released_not_owned h c b h' :
  release_block c b h = (Ok tt, h') →
  ∃ cont', containers h' !! c = Some cont' ∧ b ∉ m_blocks cont'.
Proof.
  intros (cont & blk & _ & _ & _ & ->)%release_block_Ok. cbn.
  eexists. split; [apply lookup_insert_eq|]. cbn.
  intros [_ Hb]%elem_of_difference. by apply Hb, elem_of_singleton.
Qed.

Lemma foreign_not_owned h c cont c2 cont2 b :
  heap_wf h → c ≠ c2 →
  containers h !! c = Some cont → containers h !! c2 = Some cont2 →
  b ∈ m_blocks cont2 → b ∉ m_blocks cont.
Proof.
  intros Hwf Hne Hc Hc2 Hin2 Hin.
  destruct (hw_owned h Hwf c cont b Hc Hin) as (blk & Hb & Hbc).
  destruct (hw_owned h Hwf c2 cont2 b Hc2 Hin2) as (blk2 & Hb2 & Hbc2).
  congruence.
Qed.

(** C1.  [release_block] on a handle the container does not currently own
    fails with [InvalidHandle], and the store after the call, with the
    container's live-block set in it, is the store before the call. *)
Theorem release_block_invalid_handle h c cont b :
  containers h !! c = Some cont →
  b ∉ m_blocks cont →
  ∃ h', release_block c b h = (Err InvalidHandle, h')
    ∧ active_blocks c h' = (Ok (m_blocks cont), h')
    ∧ h' = h.
Proof.
  intros Hcont Hnot. exists h. split_and!; [|by apply active_blocks_run|done].
  by apply (release_block_not_owned h c cont).
Qed.

Lemma release_block_invalid_handle_witness :
  release_block 1 1 demo_store = (Ok tt, demo_released)
  ∧ containers demo_released !! 1%positive = Some (demo_schema ∅)
  ∧ ∃ h', release_block 1 1 demo_released = (Err InvalidHandle, h')
      ∧ active_blocks 1 h' = (Ok ∅, h')
      ∧ h' = demo_released.
Proof.
  split; [exact demo_released_run|]. split; [vm_compute; reflexivity|].
  apply (release_block_invalid_handle demo_released 1 (demo_schema ∅) 1).
  - vm_compute. reflexivity.
  - by_evaluation.
Defined.

(** Releasing a block a second time is such a call. *)
Lemma release_block_twice h c b h' :
  release_block c b h = (Ok tt, h') →
  release_block c b h' = (Err InvalidHandle, h').
Proof.
  intros (cont' & Hcont' & Hnot)%released_not_owned.
  by apply (release_block_not_owned h' c cont').
Qed.

(** Releasing a block of another container is such a call. *)
Lemma release_block_foreign h c cont c2 cont2 b :
  heap_wf h → c ≠ c2 →
  containers h !! c = Some cont → containers h !! c2 = Some cont2 →
  b ∈ m_blocks cont2 →
  release_block c b h = (Err InvalidHandle, h).
Proof.
  intros Hwf Hne Hc Hc2 Hin2.
  apply (release_block_not_owned h c cont); [done|].
  by eapply foreign_not_owned.
Qed.

(** ** A new block *)

Lemma registered_buffer names (bufs : list positive) name :
  length bufs = length names → name ∈ names →
  ∃ k p, SmallSetVector.index names name = Ok k
         ∧ names !! N.to_nat k = Some name
         ∧ bufs !! N.to_nat k = Some p.
Proof.
  intros Hlen (k & Hk)%index_registered.
  pose proof (index_in_range _ _ _ Hk) as Hname.
  destruct (lookup_lt_is_Some_2 bufs (N.to_nat k)) as [p Hp].
  { rewrite Hlen. by eapply lookup_lt_Some. }
  by exists k, p.
Qed.

(** C5.  On a container with a positive block size, and with the allocator
    able to serve it, [new_block] returns a block whose active amount is 0
    and which is not full; the block carries one freshly allocated array of
    [block_size] cells per registered float attribute and one per registered
    vec3 attribute, each name resolving to one of them; the block was not in
    the live-block set and the live-block set afterwards is the old one with
    that block added, every other container being as before. *)
Theorem new_block_spec h c cont :
  heap_wf h →
  containers h !! c = Some cont →
  (0 < m_block_size cont)%N →
  (block_cost cont ≤ mem_free h)%N →
  ∃ b h' fbufs vbufs,
    new_block c h = (Ok b, h')
    ∧ active_amount b h' = (Ok 0%N, h')
    ∧ is_full b h' = (Ok false, h')
    ∧ size b h' = (Ok (m_block_size cont), h')
    ∧ float_buffers b h' = (Ok fbufs, h')
    ∧ vec3_buffers b h' = (Ok vbufs, h')
    ∧ length fbufs = length (m_float_attribute_names cont)
    ∧ length vbufs = length (m_vec3_attribute_names cont)
    ∧ NoDup fbufs
    ∧ NoDup vbufs
    ∧ (∀ p, p ∈ fbufs →
         float_arrays h !! p = None
         ∧ float_arrays h' !! p
           = Some (replicate (N.to_nat (m_block_size cont)) None))
    ∧ (∀ p, p ∈ vbufs →
         vec3_arrays h !! p = None
         ∧ vec3_arrays h' !! p
           = Some (replicate (N.to_nat (m_block_size cont)) None))
    ∧ (∀ name, name ∈ m_float_attribute_names cont →
         ∃ p, float_buffer b name h' = (Ok p, h') ∧ p ∈ fbufs)
    ∧ (∀ name, name ∈ m_vec3_attribute_names cont →
         ∃ p, vec3_buffer b name h' = (Ok p, h') ∧ p ∈ vbufs)
    ∧ (b ∉ m_blocks cont)
    ∧ active_blocks c h' = (Ok ({[b]} ∪ m_blocks cont), h')
    ∧ (∀ c', c' ≠ c → containers h' !! c' = containers h !! c').
Proof.
  intros Hwf Hcont Hpos Hmem.
  destruct (new_block_total h c cont Hcont Hmem) as (b & h' & Hrun).
  exists b, h'.
  destruct (new_block_Ok _ _ _ _ Hrun)
    as (cont0 & fbufs & vbufs & farrays & varrays & Hcont0 & _ & Hfa & Hva & Hb & Hh').
  assert (cont0 = cont) as -> by congruence. clear Hcont0.
  exists fbufs, vbufs. split; [done|].
  apply alloc_arrays_spec in Hfa as (Hflen & Hfnd & Hfnew & _).
  apply alloc_arrays_spec in Hva as (Hvlen & Hvnd & Hvnew & _).
  set (blk' := mkParticlesBlock c fbufs vbufs 0).
  set (cont' := with_blocks cont ({[b]} ∪ m_blocks cont)).
  assert (Hb' : blocks h' !! b = Some blk').
  { rewrite Hh'. apply lookup_insert_eq. }
  assert (Hc' : containers h' !! c = Some cont').
  { rewrite Hh'. apply lookup_insert_eq. }
  split_and!; try done.
  - by rewrite (active_amount_run h' b blk').
  - rewrite (is_full_run h' b blk' Hb' cont' Hc'). cbn.
    by destruct (m_block_size cont); [lia|].
  - by rewrite (size_value h' b blk' Hb' cont' Hc').
  - by rewrite (float_buffers_run h' b blk').
  - by rewrite (vec3_buffers_run h' b blk').
  - intros p Hp. rewrite Hh'. by apply Hfnew.
  - intros p Hp. rewrite Hh'. by apply Hvnew.
  - intros name Hname.
    destruct (registered_buffer _ fbufs name Hflen Hname) as (k & p & Hk & _ & Hp).
    exists p. split; [|by eapply list_elem_of_lookup_2].
    rewrite (float_buffer_run h' c cont' Hc' b blk' Hb' eq_refl).
    unfold cont', blk', with_blocks.
    cbn [m_float_attribute_names m_float_buffers]. by rewrite Hk, Hp.
  - intros name Hname.
    destruct (registered_buffer _ vbufs name Hvlen Hname) as (k & p & Hk & _ & Hp).
    exists p. split; [|by eapply list_elem_of_lookup_2].
    rewrite (vec3_buffer_run h' c cont' Hc' b blk' Hb' eq_refl).
    unfold cont', blk', with_blocks.
    cbn [m_vec3_attribute_names m_vec3_buffers]. by rewrite Hk, Hp.
  - intros Hin. destruct (owned_in_store h c cont b Hwf Hcont Hin) as [blk Hblk].
    assert (blocks h !! b = None); [|congruence].
    rewrite Hb. apply not_elem_of_dom, is_fresh.
  - by rewrite (active_blocks_run h' c cont').
  - intros c' Hne. rewrite Hh'. cbn. by rewrite lookup_insert_ne.
Qed.

Lemma demo_constructed_wf : heap_wf demo_constructed.
Proof.
  apply (construct_wf _ _ _ _ _ _ (heap_wf_empty 1024) demo_constructed_run).
Qed.

Lemma new_block_spec_witness :
  containers demo_constructed !! 1%positive = Some (demo_schema ∅)
  ∧ ∃ b h', new_block 1 demo_constructed = (Ok b, h')
      ∧ active_amount b h' = (Ok 0%N, h')
      ∧ is_full b h' = (Ok false, h')
      ∧ active_blocks 1 h' = (Ok ({[b]} ∪ ∅), h').
Proof.
  split; [reflexivity|].
  destruct (new_block_spec demo_constructed 1 (demo_schema ∅)
              demo_constructed_wf eq_refl)
    as (b & h' & fbufs & vbufs & Hrun & Hzero & Hfull & _ & _ & _ & _ & _ & _
        & _ & _ & _ & _ & _ & _ & Hlive & _).
  - vm_compute. reflexivity.
  - vm_compute. by intros [=].
  - by exists b, h'.
Defined.

(** ** Writing and reading an attribute *)

(** C6.  For a block of the store, a registered float attribute [name] and an
    index [i] below the capacity: [float_buffer(name)] returns an array; a
    store of [v] at [i] succeeds; a load at [i] straight after returns [v];
    every other index of the array, every other float array (so the buffer of
    every other attribute and of every other block), every vec3 array, every
    block and every container are as before. *)
Theorem float_buffer_write_read h b blk cont name i v :
  heap_wf h →
  blocks h !! b = Some blk →
  containers h !! m_container blk = Some cont →
  name ∈ m_float_attribute_names cont →
  (i < m_block_size cont)%N →
  ∃ p h',
    float_buffer b name h = (Ok p, h)
    ∧ write_float p i v h = (Ok tt, h')
    ∧ float_buffer b name h' = (Ok p, h')
    ∧ read_float p i h' = (Ok v, h')
    ∧ (∀ j, j ≠ i → fst (read_float p j h') = fst (read_float p j h))
    ∧ (∀ name' q, name' ≠ name → float_buffer b name' h = (Ok q, h) →
         q ≠ p ∧ float_buffer b name' h' = (Ok q, h'))
    ∧ (∀ q, q ≠ p → float_arrays h' !! q = float_arrays h !! q)
    ∧ vec3_arrays h' = vec3_arrays h
    ∧ blocks h' = blocks h
    ∧ containers h' = containers h.
Proof.
  intros Hwf Hblk Hcont Hname Hi.
  destruct (hw_block h Hwf b blk Hblk) as (cont0 & Hcont0 & Hbw).
  assert (cont0 = cont) as -> by congruence. clear Hcont0.
  destruct (registered_buffer _ (m_float_buffers blk) name
              (bw_float_count _ _ _ _ Hbw) Hname) as (k & p & Hk & Hkname & Hp).
  destruct (bw_float_alloc _ _ _ _ Hbw p) as (arr & Harr & Hlen);
    [by eapply list_elem_of_lookup_2|].
  assert (Hin : N.to_nat i < length arr) by lia.
  set (h' := mkHeap (containers h) (blocks h)
               (<[p := <[N.to_nat i := Some v]> arr]> (float_arrays h))
               (vec3_arrays h) (mem_free h)).
  exists p, h'. split_and!.
  - rewrite (float_buffer_run h _ cont Hcont b blk Hblk eq_refl).
    by rewrite Hk, Hp.
  - by apply (write_float_run h p arr).
  - rewrite (float_buffer_run h' _ cont Hcont b blk Hblk eq_refl).
    by rewrite Hk, Hp.
  - unfold read_float. cbn. rewrite lookup_insert_eq.
    by rewrite list_lookup_insert_eq.
  - intros j Hj. unfold read_float. cbn. rewrite lookup_insert_eq, Harr.
    rewrite list_lookup_insert_ne by lia.
    by destruct (arr !! N.to_nat j) as [[?|]|].
  - intros name' q Hne.
    rewrite (float_buffer_run h _ cont Hcont b blk Hblk eq_refl).
    rewrite (float_buffer_run h' _ cont Hcont b blk Hblk eq_refl).
    destruct (SmallSetVector.index _ name') as [k'| |] eqn:Hk'; [|done..].
    destruct (m_float_buffers blk !! N.to_nat k') as [q'|] eqn:Hq'; [|done].
    intros [= ->]. split; [|done]. intros ->.
    pose proof (NoDup_lookup _ _ _ _ (bw_float_nodup _ _ _ _ Hbw) Hq' Hp) as Hkk.
    apply index_in_range in Hk'. rewrite Hkk in Hk'. congruence.
  - intros q Hq. cbn. by rewrite lookup_insert_ne.
  - done.
  - done.
  - done.
Qed.

Lemma float_buffer_write_read_witness :
  blocks demo_store !! 1%positive = Some demo_block
  ∧ containers demo_store !! 1%positive = Some (demo_schema {[1%positive]})
  ∧ ∃ p h', float_buffer 1 "mass" demo_store = (Ok p, demo_store)
      ∧ write_float p 0 one_and_a_half demo_store = (Ok tt, h')
      ∧ read_float p 0 h' = (Ok one_and_a_half, h').
Proof.
  split; [reflexivity|]. split; [reflexivity|].
  destruct (float_buffer_write_read demo_store 1 demo_block
              (demo_schema {[1%positive]}) "mass" 0 one_and_a_half
              demo_store_wf eq_refl eq_refl)
    as (p & h' & Hbuf & Hwrite & _ & Hread & _).
  - by_evaluation.
  - vm_compute. reflexivity.
  - by exists p, h'.
Defined.

(** ** Beyond the stated properties: the accessors *)

Lemma write_vec3_run h p arr i v :
  vec3_arrays h !! p = Some arr → N.to_nat i < length arr →
  write_vec3 p i v h =
    (Ok tt, mkHeap (containers h) (blocks h) (float_arrays h)
              (<[p := <[N.to_nat i := Some v]> arr]> (vec3_arrays h))
              (mem_free h)).
Proof.
  intros Hp Hi. unfold write_vec3. rewrite Hp. by case_decide.
Qed.

(** The vec3 side of the attribute arrays.  For a block of the store, a
    registered vec3 attribute [name] and an index [i] below the capacity:
    [vec3_buffer(name)] returns an array; a store of [v] at [i] succeeds; a
    load at [i] straight after returns [v]; every other index of the array,
    the buffer of every other vec3 attribute, every other vec3 array, every
    float array, every block and every container are as before. *)
Theorem vec3_buffer_write_read h b blk cont name i v :
  heap_wf h →
  blocks h !! b = Some blk →
  containers h !! m_container blk = Some cont →
  name ∈ m_vec3_attribute_names cont →
  (i < m_block_size cont)%N →
  ∃ p h',
    vec3_buffer b name h = (Ok p, h)
    ∧ write_vec3 p i v h = (Ok tt, h')
    ∧ vec3_buffer b name h' = (Ok p, h')
    ∧ read_vec3 p i h' = (Ok v, h')
    ∧ (∀ j, j ≠ i → fst (read_vec3 p j h') = fst (read_vec3 p j h))
    ∧ (∀ name' q, name' ≠ name → vec3_buffer b name' h = (Ok q, h) →
         q ≠ p ∧ vec3_buffer b name' h' = (Ok q, h'))
    ∧ (∀ q, q ≠ p → vec3_arrays h' !! q = vec3_arrays h !! q)
    ∧ float_arrays h' = float_arrays h
    ∧ blocks h' = blocks h
    ∧ containers h' = containers h.
Proof.
  intros Hwf Hblk Hcont Hname Hi.
  destruct (hw_block h Hwf b blk Hblk) as (cont0 & Hcont0 & Hbw).
  assert (cont0 = cont) as -> by congruence. clear Hcont0.
  destruct (registered_buffer _ (m_vec3_buffers blk) name
              (bw_vec3_count _ _ _ _ Hbw) Hname) as (k & p & Hk & Hkname & Hp).
  destruct (bw_vec3_alloc _ _ _ _ Hbw p) as (arr & Harr & Hlen);
    [by eapply list_elem_of_lookup_2|].
  assert (Hin : N.to_nat i < length arr) by lia.
  set (h' := mkHeap (containers h) (blocks h) (float_arrays h)
               (<[p := <[N.to_nat i := Some v]> arr]> (vec3_arrays h))
               (mem_free h)).
  exists p, h'. split_and!.
  - rewrite (vec3_buffer_run h _ cont Hcont b blk Hblk eq_refl).
    by rewrite Hk, Hp.
  - by apply (write_vec3_run h p arr).
  - rewrite (vec3_buffer_run h' _ cont Hcont b blk Hblk eq_refl).
    by rewrite Hk, Hp.
  - unfold read_vec3. cbn. rewrite lookup_insert_eq.
    by rewrite list_lookup_insert_eq.
  - intros j Hj. unfold read_vec3. cbn. rewrite lookup_insert_eq, Harr.
    rewrite list_lookup_insert_ne by lia.
    by destruct (arr !! N.to_nat j) as [[?|]|].
  - intros name' q Hne.
    rewrite (vec3_buffer_run h _ cont Hcont b blk Hblk eq_refl).
    rewrite (vec3_buffer_run h' _ cont Hcont b blk Hblk eq_refl).
    destruct (SmallSetVector.index _ name') as [k'| |] eqn:Hk'; [|done..].
    destruct (m_vec3_buffers blk !! N.to_nat k') as [q'|] eqn:Hq'; [|done].
    intros [= ->]. split; [|done]. intros ->.
    pose proof (NoDup_lookup _ _ _ _ (bw_vec3_nodup _ _ _ _ Hbw) Hq' Hp) as Hkk.
    apply index_in_range in Hk'. rewrite Hkk in Hk'. congruence.
  - intros q Hq. cbn. by rewrite lookup_insert_ne.
  - done.
  - done.
  - done.
Qed.

Lemma vec3_buffer_write_read_witness :
  blocks demo_store !! 1%positive = Some demo_block
  ∧ containers demo_store !! 1%positive = Some (demo_schema {[1%positive]})
  ∧ ∃ p h', vec3_buffer 1 "position" demo_store = (Ok p, demo_store)
      ∧ write_vec3 p 3 (mkVec3 one_and_a_half one_and_a_half one_and_a_half)
          demo_store = (Ok tt, h')
      ∧ read_vec3 p 3 h'
        = (Ok (mkVec3 one_and_a_half one_and_a_half one_and_a_half), h').
Proof.
  split; [reflexivity|]. split; [reflexivity|].
  destruct (vec3_buffer_write_read demo_store 1 demo_block
              (demo_schema {[1%positive]}) "position" 3
              (mkVec3 one_and_a_half one_and_a_half one_and_a_half)
              demo_store_wf eq_refl eq_refl)
    as (p & h' & Hbuf & Hwrite & _ & Hread & _).
  - by_evaluation.
  - vm_compute. reflexivity.
  - by exists p, h'.
Defined.

Lemma block_size_store c h : snd (block_size c h) = h.
Proof.
  unfold block_size, bind, get_container, ret. by destruct (containers h !! c).
Qed.

Lemma float_buffer_index_store c name h : snd (float_buffer_index c name h) = h.
Proof.
  unfold float_buffer_index, bind, get_container, lift.
  by destruct (containers h !! c).
Qed.

Lemma vec3_buffer_index_store c name h : snd (vec3_buffer_index c name h) = h.
Proof.
  unfold vec3_buffer_index, bind, get_container, lift.
  by destruct (containers h !! c).
Qed.

Lemma size_store b h : snd (size b h) = h.
Proof.
  unfold size, bind, get_block.
  destruct (blocks h !! b); [apply block_size_store | done].
Qed.

(** None of the accessors changes the store, whatever it returns: the
    container's [block_size], [float_attribute_amount],
    [vec3_attribute_amount], [float_buffer_index], [vec3_buffer_index] and
    [active_blocks], and the block's [active_amount] (the call, not a store
    through the reference), [is_full], [next_inactive_index], [size],
    [container], [float_buffers], [vec3_buffers], [float_buffer] and
    [vec3_buffer]. *)
Theorem accessors_leave_store h :
  (∀ c, snd (block_size c h) = h
        ∧ snd (float_attribute_amount c h) = h
        ∧ snd (vec3_attribute_amount c h) = h
        ∧ snd (active_blocks c h) = h)
  ∧ (∀ c name, snd (float_buffer_index c name h) = h
               ∧ snd (vec3_buffer_index c name h) = h)
  ∧ (∀ b, snd (active_amount b h) = h
          ∧ snd (is_full b h) = h
          ∧ snd (next_inactive_index b h) = h
          ∧ snd (size b h) = h
          ∧ snd (container b h) = h
          ∧ snd (float_buffers b h) = h
          ∧ snd (vec3_buffers b h) = h)
  ∧ (∀ b name, snd (float_buffer b name h) = h
               ∧ snd (vec3_buffer b name h) = h).
Proof.
  pose proof (λ c, block_size_store c h) as Hbs.
  pose proof (λ c name, float_buffer_index_store c name h) as Hfi.
  pose proof (λ c name, vec3_buffer_index_store c name h) as Hvi.
  pose proof (λ b, size_store b h) as Hsize.
  split_and!.
  - intros c. split_and!; [apply Hbs|..];
      unfold float_attribute_amount, vec3_attribute_amount, active_blocks,
        bind, get_container, ret; by destruct (containers h !! c).
  - intros c name. by split.
  - intros b. split_and!; try apply Hsize;
      try (unfold active_amount, next_inactive_index, container,
             float_buffers, vec3_buffers, bind, get_block, ret;
           by destruct (blocks h !! b)).
    unfold is_full, bind at 1, get_block.
    destruct (blocks h !! b) as [blk|]; [|done].
    unfold bind. pose proof (Hsize b) as Hs.
    by destruct (size b h) as [[s| |] h1]; cbn in *.
  - intros b name. split.
    + unfold float_buffer, bind at 1, get_block.
      destruct (blocks h !! b) as [blk|]; [|done].
      unfold bind. pose proof (Hfi (m_container blk) name) as Hi.
      destruct (float_buffer_index _ _ h) as [[k| |] h1]; cbn in *; [|done..].
      unfold subscript, ret, undefined. by destruct (_ !! N.to_nat k).
    + unfold vec3_buffer, bind at 1, get_block.
      destruct (blocks h !! b) as [blk|]; [|done].
      unfold bind. pose proof (Hvi (m_container blk) name) as Hi.
      destruct (vec3_buffer_index _ _ h) as [[k| |] h1]; cbn in *; [|done..].
      unfold subscript, ret, undefined. by destruct (_ !! N.to_nat k).
Qed.

(** Nothing checks an amount stored through [active_amount()] against the
    capacity.  An amount above the block size is accepted; the block then
    reports that it is not full, and the index [next_inactive_index()] hands
    out is past the end of every attribute array of the block. *)
Theorem active_amount_unchecked h b blk cont n :
  heap_wf h →
  blocks h !! b = Some blk →
  containers h !! m_container blk = Some cont →
  (m_block_size cont < n)%N →
  ∃ h', set_active_amount b n h = (Ok tt, h')
    ∧ active_amount b h' = (Ok n, h')
    ∧ is_full b h' = (Ok false, h')
    ∧ next_inactive_index b h' = (Ok n, h')
    ∧ (∀ p v, p ∈ m_float_buffers blk →
         read_float p n h' = (Undef, h')
         ∧ write_float p n v h' = (Undef, h'))
    ∧ (∀ p v, p ∈ m_vec3_buffers blk →
         read_vec3 p n h' = (Undef, h')
         ∧ write_vec3 p n v h' = (Undef, h')).
Proof.
  intros Hwf Hblk Hcont Hn.
  destruct (hw_block h Hwf b blk Hblk) as (cont0 & Hcont0 & Hbw).
  assert (cont0 = cont) as -> by congruence. clear Hcont0.
  eexists. split; [by apply set_active_amount_run|].
  set (blk' := mkParticlesBlock _ _ _ _).
  set (h' := mkHeap _ _ _ _ _).
  assert (Hblk' : blocks h' !! b = Some blk') by apply lookup_insert_eq.
  split_and!.
  - by rewrite (active_amount_run h' b blk').
  - rewrite (is_full_run h' b blk' Hblk' cont Hcont). cbn.
    by rewrite (proj2 (N.eqb_neq n _)); [|lia].
  - by rewrite (next_inactive_index_run h' b blk').
  - intros p v Hp. destruct (bw_float_alloc _ _ _ _ Hbw p Hp) as (arr & Harr & Hlen).
    split.
    + apply (read_float_out_of_bounds h' p arr); [done | lia].
    + apply (write_float_out_of_bounds h' p arr); [done | lia].
  - intros p v Hp. destruct (bw_vec3_alloc _ _ _ _ Hbw p Hp) as (arr & Harr & Hlen).
    split.
    + apply (read_vec3_out_of_bounds h' p arr); [done | lia].
    + apply (write_vec3_out_of_bounds h' p arr); [done | lia].
Qed.

Lemma active_amount_unchecked_witness :
  blocks demo_store !! 1%positive = Some demo_block
  ∧ containers demo_store !! 1%positive = Some (demo_schema {[1%positive]})
  ∧ ∃ h', set_active_amount 1 9 demo_store = (Ok tt, h')
      ∧ is_full 1 h' = (Ok false, h')
      ∧ next_inactive_index 1 h' = (Ok 9%N, h')
      ∧ write_float 1 9 one_and_a_half h' = (Undef, h').
Proof.
  split; [reflexivity|]. split; [reflexivity|].
  destruct (active_amount_unchecked demo_store 1 demo_block
              (demo_schema {[1%positive]}) 9 demo_store_wf eq_refl eq_refl)
    as (h' & Hset & _ & Hfull & Hnext & Hfloat & _).
  - vm_compute. reflexivity.
  - exists h'. split_and!; [done..|].
    apply (Hfloat 1%positive one_and_a_half). by_evaluation.
Defined.

(** [clear()] forgets the particles, not their data: a value written into an
    attribute array is still there after [clear()], under the same buffer,
    while the active amount is back to 0. *)
Theorem clear_keeps_written_values h b blk cont name i v :
  heap_wf h →
  blocks h !! b = Some blk →
  containers h !! m_container blk = Some cont →
  name ∈ m_float_attribute_names cont →
  (i < m_block_size cont)%N →
  ∃ p h1 h2,
    float_buffer b name h = (Ok p, h)
    ∧ write_float p i v h = (Ok tt, h1)
    ∧ clear b h1 = (Ok tt, h2)
    ∧ active_amount b h2 = (Ok 0%N, h2)
    ∧ float_buffer b name h2 = (Ok p, h2)
    ∧ read_float p i h2 = (Ok v, h2).
Proof.
  intros Hwf Hblk Hcont Hname Hi.
  destruct (hw_block h Hwf b blk Hblk) as (cont0 & Hcont0 & Hbw).
  assert (cont0 = cont) as -> by congruence. clear Hcont0.
  destruct (registered_buffer _ (m_float_buffers blk) name
              (bw_float_count _ _ _ _ Hbw) Hname) as (k & p & Hk & Hkname & Hp).
  destruct (bw_float_alloc _ _ _ _ Hbw p) as (arr & Harr & Hlen);
    [by eapply list_elem_of_lookup_2|].
  assert (Hin : N.to_nat i < length arr) by lia.
  set (h1 := mkHeap (containers h) (blocks h)
               (<[p := <[N.to_nat i := Some v]> arr]> (float_arrays h))
               (vec3_arrays h) (mem_free h)).
  set (blk' := mkParticlesBlock (m_container blk) (m_float_buffers blk)
                 (m_vec3_buffers blk) 0).
  set (h2 := mkHeap (containers h1) (<[b := blk']> (blocks h1))
               (float_arrays h1) (vec3_arrays h1) (mem_free h1)).
  assert (Hblk2 : blocks h2 !! b = Some blk') by apply lookup_insert_eq.
  exists p, h1, h2. split_and!.
  - rewrite (float_buffer_run h _ cont Hcont b blk Hblk eq_refl).
    by rewrite Hk, Hp.
  - by apply (write_float_run h p arr).
  - rewrite (clear_run h1 b). by apply (set_active_amount_run h1 b blk).
  - by rewrite (active_amount_run h2 b blk').
  - rewrite (float_buffer_run h2 _ cont Hcont b blk' Hblk2 eq_refl).
    unfold blk'. cbn [m_float_buffers]. by rewrite Hk, Hp.
  - unfold read_float. cbn. rewrite lookup_insert_eq.
    by rewrite list_lookup_insert_eq.
Qed.

Lemma clear_keeps_written_values_witness :
  blocks demo_store !! 1%positive = Some demo_block
  ∧ containers demo_store !! 1%positive = Some (demo_schema {[1%positive]})
  ∧ ∃ p h1 h2, float_buffer 1 "age" demo_store = (Ok p, demo_store)
      ∧ write_float p 2 one_and_a_half demo_store = (Ok tt, h1)
      ∧ clear 1 h1 = (Ok tt, h2)
      ∧ read_float p 2 h2 = (Ok one_and_a_half, h2).
Proof.
  split; [reflexivity|]. split; [reflexivity|].
  destruct (clear_keeps_written_values demo_store 1 demo_block
              (demo_schema {[1%positive]}) "age" 2 one_and_a_half
              demo_store_wf eq_refl eq_refl)
    as (p & h1 & h2 & Hbuf & Hwrite & Hclear & _ & _ & Hread).
  - by_evaluation.
  - vm_compute. reflexivity.
  - by exists p, h1, h2.
Defined.

(** A store through [active_amount()] of one block is seen by that block
    only: it reads the stored amount back, and every other block answers
    [active_amount], [next_inactive_index] and [is_full] as before; the
    capacity and the buffers of every block, the arrays and the containers
    are untouched. *)
Theorem set_active_amount_frame h b blk n :
  blocks h !! b = Some blk →
  ∃ h', set_active_amount b n h = (Ok tt, h')
    ∧ active_amount b h' = (Ok n, h')
    ∧ (∀ b', b' ≠ b →
         fst (active_amount b' h') = fst (active_amount b' h)
         ∧ fst (next_inactive_index b' h') = fst (next_inactive_index b' h)
         ∧ fst (is_full b' h') = fst (is_full b' h))
    ∧ (∀ b', fst (size b' h') = fst (size b' h))
    ∧ (∀ b' name,
         fst (float_buffer b' name h') = fst (float_buffer b' name h)
         ∧ fst (vec3_buffer b' name h') = fst (vec3_buffer b' name h))
    ∧ float_arrays h' = float_arrays h
    ∧ vec3_arrays h' = vec3_arrays h
    ∧ containers h' = containers h.
Proof.
  intros Hblk. eexists. split; [by apply set_active_amount_run|].
  set (blk' := mkParticlesBlock _ _ _ _).
  set (h' := mkHeap _ _ _ _ _).
  assert (Hblk' : blocks h' !! b = Some blk') by apply lookup_insert_eq.
  assert (Hother : ∀ b', b' ≠ b → blocks h' !! b' = blocks h !! b').
  { intros b' Hne. cbn. by rewrite lookup_insert_ne. }
  assert (Hbs : ∀ c, fst (block_size c h') = fst (block_size c h)).
  { intros c. unfold block_size, bind, get_container, ret. cbn.
    by destruct (containers h !! c). }
  assert (Hsize : ∀ b', fst (size b' h') = fst (size b' h)).
  { intros b'. destruct (decide (b' = b)) as [->|Hne].
    - rewrite (size_run h' b blk' Hblk'), (size_run h b blk Hblk). apply Hbs.
    - unfold size, bind, get_block. rewrite (Hother b' Hne).
      destruct (blocks h !! b') as [blk0|]; [apply Hbs | done]. }
  split_and!; try done.
  - by rewrite (active_amount_run h' b blk').
  - intros b' Hne. split_and!.
    + unfold active_amount, bind, get_block, ret. rewrite (Hother b' Hne).
      by destruct (blocks h !! b').
    + unfold next_inactive_index, bind, get_block, ret. rewrite (Hother b' Hne).
      by destruct (blocks h !! b').
    + unfold is_full, bind at 1, get_block. rewrite (Hother b' Hne).
      unfold bind at 2, get_block.
      destruct (blocks h !! b') as [blk0|]; [|done].
      unfold bind. pose proof (Hsize b') as Hs.
      pose proof (size_store b' h') as Hs1.
      pose proof (size_store b' h) as Hs2.
      destruct (size b' h') as [[s1| |] h1], (size b' h) as [[s2| |] h2];
        cbn in *; congruence.
  - intros b' name.
    assert (Hfi : ∀ c, float_buffer_index c name h'
                       = (fst (float_buffer_index c name h), h')).
    { intros c. unfold float_buffer_index, bind, get_container, lift. cbn.
      by destruct (containers h !! c). }
    assert (Hvi : ∀ c, vec3_buffer_index c name h'
                       = (fst (vec3_buffer_index c name h), h')).
    { intros c. unfold vec3_buffer_index, bind, get_container, lift. cbn.
      by destruct (containers h !! c). }
    assert (Hshape : ∃ blk1 blk2,
              (blocks h' !! b' = Some blk1 ∧ blocks h !! b' = Some blk2
               ∧ m_container blk1 = m_container blk2
               ∧ m_float_buffers blk1 = m_float_buffers blk2
               ∧ m_vec3_buffers blk1 = m_vec3_buffers blk2)
              ∨ (blocks h' !! b' = None ∧ blocks h !! b' = None)).
    { destruct (decide (b' = b)) as [->|Hne].
      - exists blk', blk. by left.
      - rewrite (Hother b' Hne). destruct (blocks h !! b') as [blk0|].
        + exists blk0, blk0. by left.
        + exists blk, blk. by right. }
    destruct Hshape as (blk1 & blk2 & [(H1 & H2 & Hc & Hf & Hv)|[H1 H2]]).
    + split.
      * unfold float_buffer, bind at 1, get_block. rewrite H1.
        unfold bind at 2, get_block. rewrite H2.
        unfold bind. rewrite Hc, Hfi, Hf.
        pose proof (float_buffer_index_store (m_container blk2) name h) as Hi.
        destruct (float_buffer_index _ name h) as [[k| |] h0]; cbn in *; [|done..].
        subst h0. unfold subscript, ret, undefined.
        by destruct (_ !! N.to_nat k).
      * unfold vec3_buffer, bind at 1, get_block. rewrite H1.
        unfold bind at 2, get_block. rewrite H2.
        unfold bind. rewrite Hc, Hvi, Hv.
        pose proof (vec3_buffer_index_store (m_container blk2) name h) as Hi.
        destruct (vec3_buffer_index _ name h) as [[k| |] h0]; cbn in *; [|done..].
        subst h0. unfold subscript, ret, undefined.
        by destruct (_ !! N.to_nat k).
    + split.
      * unfold float_buffer, bind, get_block. by rewrite H1, H2.
      * unfold vec3_buffer, bind, get_block. by rewrite H1, H2.
Qed.

Lemma set_active_amount_frame_witness :
  blocks demo_store !! 1%positive = Some demo_block
  ∧ ∃ h', set_active_amount 1 3 demo_store = (Ok tt, h')
      ∧ active_amount 1 h' = (Ok 3%N, h')
      ∧ containers h' = containers demo_store.
Proof.
  split; [reflexivity|].
  destruct (set_active_amount_frame demo_store 1 demo_block 3 eq_refl)
    as (h' & Hset & Hget & _ & _ & _ & _ & _ & Hc).
  by exists h'.
Defined.

End BParticles.

Module USDGenericMeshWriterFacts.

Import USDGenericMeshWriter.
Local Open Scope Z_scope.

(** ** Loops *)

Lemma for_loop_invariant {S} (P : nat → S → Prop) body count :
  ∀ first s,
    P first s →
    (∀ i s, (first ≤ i < first + count)%nat → P i s →
       ∃ s', body i s = Some s' ∧ P (Datatypes.S i) s') →
    ∃ s', for_loop first count body s = Some s' ∧ P (first + count)%nat s'.
Proof.
  induction count as [|count IH]; intros first s Hs Hstep; cbn.
  - exists s. by rewrite Nat.add_0_r.
  - destruct (Hstep first s) as (s1 & -> & Hs1); [lia | done |].
    destruct (IH (Datatypes.S first) s1 Hs1) as (s' & Hrun & Hs').
    { intros i s0 Hi. apply Hstep. lia. }
    exists s'. split; [done|]. by rewrite Nat.add_succ_r.
Qed.

Lemma take_snoc {A} (l : list A) i x :
  l !! i = Some x → take (Datatypes.S i) l = take i l ++ [x].
Proof. intros Hx. by apply take_S_r. Qed.

Lemma sum_list_app l1 l2 : sum_list (l1 ++ l2) = sum_list l1 + sum_list l2.
Proof.
  unfold sum_list. induction l1 as [|x l1 IH]; cbn; [done|]. rewrite IH. lia.
Qed.

(** ** Creases *)

Lemma filter_creased_singleton (e : MEdge.t) :
  filter (λ e, MEdge.crease e ≠ 0) [e]
  = if decide (MEdge.crease e = 0) then [] else [e].
Proof.
  case_decide as Hc.
  - by rewrite filter_cons_False by tauto.
  - by rewrite filter_cons_True by done.
Qed.

Lemma get_creases_run {float} (ops : FloatOps float) (inf : float)
    (mesh : Mesh.t float) (d : USDMeshData float) :
  Mesh.totedge mesh ≤ Z.of_nat (length (Mesh.medge mesh)) →
  get_creases ops inf mesh d =
    Some (mkUSDMeshData (points d) (face_vertex_counts d) (face_indices d)
            (face_groups d)
            (crease_lengths d ++ ((λ _, 2) <$> creased_edges mesh))
            (crease_vertex_indices d ++ (creased_edges mesh ≫= edge_indices))
            (crease_sharpnesses d
             ++ (edge_sharpness ops inf <$> creased_edges mesh))).
Proof.
  intros Hlen. unfold get_creases, creased_edges.
  set (creased i := filter (λ e, MEdge.crease e ≠ 0) (take i (Mesh.medge mesh))).
  set (body := λ (edge_idx : nat) (d : USDMeshData float), _).
  destruct (for_loop_invariant
    (λ i s, s = mkUSDMeshData (points d) (face_vertex_counts d) (face_indices d)
                  (face_groups d)
                  (crease_lengths d ++ ((λ _, 2) <$> creased i))
                  (crease_vertex_indices d ++ (creased i ≫= edge_indices))
                  (crease_sharpnesses d ++ (edge_sharpness ops inf <$> creased i)))
    body (Z.to_nat (Mesh.totedge mesh)) 0%nat d) as (d' & -> & Hd').
  - unfold creased. cbn. destruct d. cbn. by rewrite !app_nil_r.
  - intros i s Hi ->.
    destruct (lookup_lt_is_Some_2 (Mesh.medge mesh) i) as [e He]; [lia|].
    unfold body. rewrite He. unfold creased. rewrite (take_snoc _ _ _ He).
    rewrite filter_app, filter_creased_singleton. fold (creased i).
    case_decide as Hc.
    + eexists. split; [done|]. by rewrite app_nil_r.
    + eexists. split; [done|].
      rewrite !fmap_app, bind_app. cbn.
      unfold push_back. by rewrite <- !app_assoc.
  - by rewrite Hd'.
Qed.

Lemma fmap_const_replicate {A} (l : list A) (x : Z) :
  ((λ _, x) <$> l) = replicate (length l) x.
Proof. induction l as [|a l IH]; cbn; [done | by rewrite IH]. Qed.

Lemma length_edge_indices (l : list MEdge.t) :
  Z.of_nat (length (l ≫= edge_indices)) = sum_list ((λ _, 2) <$> l).
Proof.
  induction l as [|e l IH]; cbn; [done|]. unfold sum_list in *. cbn in *. lia.
Qed.

Lemma creases_consistent_append {float} (ops : FloatOps float) (inf : float)
    (d : USDMeshData float) (l : list MEdge.t) pts counts indices groups :
  creases_consistent d →
  creases_consistent
    (mkUSDMeshData pts counts indices groups
       (crease_lengths d ++ ((λ _, 2) <$> l))
       (crease_vertex_indices d ++ (l ≫= edge_indices))
       (crease_sharpnesses d ++ (edge_sharpness ops inf <$> l))).
Proof.
  intros (Hall & Hsum & Hsharp). unfold creases_consistent. cbn. split_and!.
  - apply Forall_app. split; [done|]. rewrite fmap_const_replicate.
    apply Forall_replicate. lia.
  - rewrite length_app, sum_list_app, Nat2Z.inj_add, Hsum. f_equal.
    apply length_edge_indices.
  - rewrite !length_app, !length_fmap. lia.
Qed.

(** The crease arrays stay consistent.  On a mesh whose edge count does not
    exceed its edge array, [get_creases] returns; crease arrays that were
    consistent before are consistent after; there is one more crease per
    visited edge with a crease other than 0, each of length 2; points, face
    arrays and face groups are untouched. *)
Theorem get_creases_consistent {float} (ops : FloatOps float) (inf : float)
    (mesh : Mesh.t float) (d : USDMeshData float) :
  Mesh.totedge mesh ≤ Z.of_nat (length (Mesh.medge mesh)) →
  creases_consistent d →
  ∃ d', get_creases ops inf mesh d = Some d'
    ∧ creases_consistent d'
    ∧ crease_lengths d'
      = crease_lengths d ++ replicate (length (creased_edges mesh)) 2
    ∧ points d' = points d
    ∧ face_vertex_counts d' = face_vertex_counts d
    ∧ face_indices d' = face_indices d
    ∧ face_groups d' = face_groups d.
Proof.
  intros Hlen Hcons. eexists.
  split; [by apply get_creases_run|].
  split; [by apply creases_consistent_append|]. cbn.
  by rewrite fmap_const_replicate.
Qed.

(** What [get_creases] stores, and for which edges.  The sharpnesses and the
    vertex index pairs appended are those of the visited edges whose crease is
    not 0, in edge order; a crease of 255 is stored as [SHARPNESS_INFINITE],
    any other as the crease times 1/255; when no visited edge has a crease the
    data comes back as it was. *)
Theorem get_creases_contents {float} (ops : FloatOps float) (inf : float)
    (mesh : Mesh.t float) (d : USDMeshData float) :
  Mesh.totedge mesh ≤ Z.of_nat (length (Mesh.medge mesh)) →
  ∃ d', get_creases ops inf mesh d = Some d'
    ∧ crease_sharpnesses d'
      = crease_sharpnesses d ++ (edge_sharpness ops inf <$> creased_edges mesh)
    ∧ crease_vertex_indices d'
      = crease_vertex_indices d ++ (creased_edges mesh ≫= edge_indices)
    ∧ (∀ e, e ∈ creased_edges mesh ↔
         MEdge.crease e ≠ 0
         ∧ ∃ i, Z.of_nat i < Mesh.totedge mesh ∧ Mesh.medge mesh !! i = Some e)
    ∧ (∀ e, e ∈ creased_edges mesh →
         edge_sharpness ops inf e
         = if decide (MEdge.crease e = 255) then inf
           else float_mul ops (float_of_int ops (MEdge.crease e))
                  (float_div ops (float_lit ops 1) (float_lit ops 255)))
    ∧ (creased_edges mesh = [] → d' = d).
Proof.
  intros Hlen. eexists. split; [by apply get_creases_run|]. cbn.
  split_and!; try done.
  - intros e. unfold creased_edges. rewrite list_elem_of_filter.
    rewrite list_elem_of_lookup. split.
    + intros (Hc & i & Hi). split; [done|]. exists i.
      apply lookup_take_Some in Hi as [Hi Hlt]. split; [lia | done].
    + intros (Hc & i & Hlt & Hi). split; [done|]. exists i.
      apply lookup_take_Some. split; [done | lia].
  - intros ->. destruct d. cbn. by rewrite !app_nil_r.
Qed.

(** ** Vertices *)

Lemma get_vertices_run {float} (mesh : Mesh.t float) (d : USDMeshData float) :
  0 ≤ Mesh.totvert mesh ≤ Z.of_nat (length (Mesh.mvert mesh)) →
  get_vertices mesh d =
    Some (mkUSDMeshData
            (points d
             ++ (MVert.co <$> take (Z.to_nat (Mesh.totvert mesh)) (Mesh.mvert mesh)))
            (face_vertex_counts d) (face_indices d) (face_groups d)
            (crease_lengths d) (crease_vertex_indices d) (crease_sharpnesses d)).
Proof.
  intros Hlen. unfold get_vertices, reserve. rewrite decide_True by lia.
  set (body := λ (i : nat) (d : USDMeshData float), _).
  destruct (for_loop_invariant
    (λ i s, s = mkUSDMeshData
                  (points d ++ (MVert.co <$> take i (Mesh.mvert mesh)))
                  (face_vertex_counts d) (face_indices d) (face_groups d)
                  (crease_lengths d) (crease_vertex_indices d)
                  (crease_sharpnesses d))
    body (Z.to_nat (Mesh.totvert mesh)) 0%nat
    (mkUSDMeshData (points d) (face_vertex_counts d) (face_indices d)
       (face_groups d) (crease_lengths d) (crease_vertex_indices d)
       (crease_sharpnesses d))) as (d' & -> & Hd').
  - cbn. by rewrite app_nil_r.
  - intros i s Hi ->.
    destruct (lookup_lt_is_Some_2 (Mesh.mvert mesh) i) as [vert Hv]; [lia|].
    unfold body. rewrite Hv. eexists. split; [done|]. cbn.
    rewrite (take_snoc _ _ _ Hv), fmap_app. cbn.
    unfold push_back. by rewrite app_assoc.
  - by rewrite Hd'.
Qed.

(** ** Loops and polygons *)

Lemma push_loops_run (mloop : list MLoop.t) (poly : MPoly.t) (indices : list Z) :
  0 ≤ MPoly.loopstart poly → 0 ≤ MPoly.totloop poly →
  MPoly.loopstart poly + MPoly.totloop poly ≤ Z.of_nat (length mloop) →
  push_loops mloop poly indices = Some (indices ++ poly_indices mloop poly).
Proof.
  intros Hstart Htot Hlen. unfold push_loops, poly_indices, poly_loops.
  set (rest := drop (Z.to_nat (MPoly.loopstart poly)) mloop).
  set (body := λ (j : nat) (indices : list Z), _).
  destruct (for_loop_invariant
    (λ j s, s = indices ++ ((λ loop, int_of_uint (MLoop.v loop)) <$> take j rest))
    body (Z.to_nat (MPoly.totloop poly)) 0%nat indices) as (s' & -> & Hs').
  - cbn. by rewrite app_nil_r.
  - intros j s Hj ->.
    destruct (lookup_lt_is_Some_2 rest j) as [loop Hloop].
    { unfold rest. rewrite length_drop. lia. }
    assert (Hat : array_at mloop (MPoly.loopstart poly + Z.of_nat j) = Some loop).
    { unfold array_at. rewrite decide_True by lia.
      unfold rest in Hloop. rewrite lookup_drop in Hloop.
      rewrite <- Hloop. f_equal. lia. }
    unfold body. rewrite Hat. eexists. split; [done|].
    rewrite (take_snoc _ _ _ Hloop), fmap_app. cbn.
    unfold push_back. by rewrite app_assoc.
  - by rewrite Hs'.
Qed.

Lemma length_poly_indices (mloop : list MLoop.t) (poly : MPoly.t) :
  0 ≤ MPoly.loopstart poly → 0 ≤ MPoly.totloop poly →
  MPoly.loopstart poly + MPoly.totloop poly ≤ Z.of_nat (length mloop) →
  Z.of_nat (length (poly_indices mloop poly)) = MPoly.totloop poly.
Proof.
  intros Hstart Htot Hlen. unfold poly_indices, poly_loops.
  rewrite length_fmap, length_take, length_drop. lia.
Qed.

Lemma material_faces_snoc m first (l : list MPoly.t) poly :
  material_faces m first (l ++ [poly])
  = material_faces m first l
    ++ (if decide (MPoly.mat_nr poly = m)
        then [Z.of_nat (first + length l)] else []).
Proof.
  revert first. induction l as [|p l IH]; intros first; cbn.
  - by rewrite Nat.add_0_r, app_nil_r.
  - rewrite IH, <- app_assoc. do 2 f_equal.
    case_decide; [|done]. do 2 f_equal. lia.
Qed.

Lemma elem_of_material_faces m first (l : list MPoly.t) k :
  k ∈ material_faces m first l ↔
  ∃ i poly, k = Z.of_nat (first + i) ∧ l !! i = Some poly
            ∧ MPoly.mat_nr poly = m.
Proof.
  revert first. induction l as [|p l IH]; intros first; cbn.
  - split; [by intros ?%elem_of_nil | by intros (i & poly & _ & ? & _)].
  - rewrite elem_of_app, IH. split.
    + intros [Hhere|(i & poly & -> & Hi & Hm)].
      * case_decide as Hp; [|by apply elem_of_nil in Hhere].
        apply list_elem_of_singleton in Hhere as ->.
        exists 0%nat, p. by rewrite Nat.add_0_r.
      * exists (Datatypes.S i), poly. split_and!; [f_equal; lia | done..].
    + intros ([|i] & poly & -> & Hi & Hm); cbn in Hi.
      * injection Hi as ->. left. rewrite decide_True by done.
        rewrite Nat.add_0_r. apply list_elem_of_singleton. done.
      * right. exists i, poly. split_and!; [f_equal; lia | done..].
Qed.

Lemma get_loops_polys_run {float} (mesh : Mesh.t float) (d : USDMeshData float) :
  mesh_wf mesh →
  ∃ groups,
    get_loops_polys mesh d =
      Some (mkUSDMeshData (points d)
              (face_vertex_counts d ++ (MPoly.totloop <$> polys mesh))
              (face_indices d ++ (polys mesh ≫= poly_indices (Mesh.mloop mesh)))
              groups
              (crease_lengths d) (crease_vertex_indices d) (crease_sharpnesses d))
    ∧ (Mesh.totcol mesh ≤ 1 → groups = face_groups d)
    ∧ (1 < Mesh.totcol mesh →
       ∀ m, default [] (groups !! m)
            = default [] (face_groups d !! m) ++ material_faces m 0 (polys mesh))
    ∧ (1 < Mesh.totcol mesh →
       ∀ m, is_Some (groups !! m) ↔
            is_Some (face_groups d !! m)
            ∨ ∃ poly, poly ∈ polys mesh ∧ MPoly.mat_nr poly = m).
Proof.
  intros [_ _ Hpoly Hloop Hpolys].
  unfold get_loops_polys, reserve. rewrite !decide_True by lia.
  set (cfg := bool_decide (1 < Mesh.totcol mesh)).
  set (body := λ (i : nat) (d : USDMeshData float), _).
  set (P := λ (i : nat) (s : USDMeshData float),
    ∃ groups,
      s = mkUSDMeshData (points d)
            (face_vertex_counts d
             ++ (MPoly.totloop <$> take i (Mesh.mpoly mesh)))
            (face_indices d
             ++ (take i (Mesh.mpoly mesh) ≫= poly_indices (Mesh.mloop mesh)))
            groups
            (crease_lengths d) (crease_vertex_indices d) (crease_sharpnesses d)
      ∧ (Mesh.totcol mesh ≤ 1 → groups = face_groups d)
      ∧ (1 < Mesh.totcol mesh →
         ∀ m, default [] (groups !! m)
              = default [] (face_groups d !! m)
                ++ material_faces m 0 (take i (Mesh.mpoly mesh)))
      ∧ (1 < Mesh.totcol mesh →
         ∀ m, is_Some (groups !! m) ↔
              is_Some (face_groups d !! m)
              ∨ ∃ poly, poly ∈ take i (Mesh.mpoly mesh) ∧ MPoly.mat_nr poly = m)).
  destruct (for_loop_invariant P body (Z.to_nat (Mesh.totpoly mesh)) 0%nat
    (mkUSDMeshData (points d) (face_vertex_counts d) (face_indices d)
       (face_groups d) (crease_lengths d) (crease_vertex_indices d)
       (crease_sharpnesses d))) as (d' & -> & groups & -> & Hd').
  - exists (face_groups d). cbn. rewrite !app_nil_r. split_and!; try done.
    + intros _ m. by rewrite app_nil_r.
    + intros _ m. split; [by left|]. intros [?|(poly & Hin & _)]; [done|].
      by apply elem_of_nil in Hin.
  - intros i s Hi (groups & -> & Hfew & Hfaces & Hkeys).
    destruct (lookup_lt_is_Some_2 (Mesh.mpoly mesh) i) as [poly Hp]; [lia|].
    assert (Hin : poly ∈ polys mesh).
    { apply list_elem_of_lookup. exists i. unfold polys.
      apply lookup_take_Some. split; [done | lia]. }
    destruct (Hpolys poly Hin) as (Hstart & Htot & Hend).
    unfold body. rewrite Hp. cbn [face_indices].
    rewrite (push_loops_run _ _ _ Hstart Htot Hend).
    eexists. split; [done|]. unfold P.
    eexists. cbn [points face_vertex_counts face_indices face_groups
                  crease_lengths crease_vertex_indices crease_sharpnesses].
    rewrite (take_snoc _ _ _ Hp), fmap_app, bind_app. cbn [fmap list_fmap mbind list_bind].
    rewrite app_nil_r. unfold push_back. rewrite <- !app_assoc.
    split; [reflexivity|].
    assert (Hlen : length (take i (Mesh.mpoly mesh)) = i).
    { rewrite length_take. apply lookup_lt_Some in Hp. lia. }
    unfold cfg. split_and!.
    + intros Hcol. rewrite bool_decide_eq_false_2 by lia. by apply Hfew.
    + intros Hcol m. rewrite bool_decide_eq_true_2 by done.
      rewrite material_faces_snoc, Hlen. unfold group_push_back, push_back.
      destruct (decide (MPoly.mat_nr poly = m)) as [->|Hne].
      * rewrite lookup_insert_eq. cbn. rewrite (Hfaces Hcol).
        by rewrite <- app_assoc.
      * rewrite lookup_insert_ne by done. rewrite (Hfaces Hcol).
        by rewrite app_nil_r.
    + intros Hcol m. rewrite bool_decide_eq_true_2 by done.
      unfold group_push_back.
      destruct (decide (MPoly.mat_nr poly = m)) as [<-|Hne].
      * rewrite lookup_insert_eq. split; [|by eexists].
        intros _. right. exists poly. split; [|done].
        apply elem_of_app. right. by apply list_elem_of_singleton.
      * rewrite lookup_insert_ne by done. rewrite (Hkeys Hcol). split.
        -- intros [?|(q & Hq & Hm)]; [by left|]. right. exists q.
           split; [|done]. apply elem_of_app. by left.
        -- intros [?|(q & Hq & Hm)]; [by left|].
           apply elem_of_app in Hq as [Hq|Hq]; [right; by exists q|].
           apply list_elem_of_singleton in Hq as ->. done.
  - exists groups. by rewrite Nat.add_0_l in Hd'.
Qed.

Lemma length_polys_indices (mloop : list MLoop.t) (l : list MPoly.t) :
  (∀ poly, poly ∈ l →
     0 ≤ MPoly.loopstart poly ∧ 0 ≤ MPoly.totloop poly
     ∧ MPoly.loopstart poly + MPoly.totloop poly ≤ Z.of_nat (length mloop)) →
  Z.of_nat (length (l ≫= poly_indices mloop)) = sum_list (MPoly.totloop <$> l).
Proof.
  induction l as [|poly l IH]; intros Hin; [done|]. cbn.
  destruct (Hin poly) as (Hstart & Htot & Hend); [by left|].
  rewrite length_app, Nat2Z.inj_add, (length_poly_indices _ _ Hstart Htot Hend).
  unfold sum_list in *. cbn. rewrite IH; [done|].
  intros q Hq. apply Hin. by right.
Qed.

Lemma length_polys {float} (mesh : Mesh.t float) :
  mesh_wf mesh → Z.of_nat (length (polys mesh)) = Mesh.totpoly mesh.
Proof.
  intros [_ _ Hpoly _ _]. unfold polys. rewrite length_take. lia.
Qed.

Lemma faces_consistent_append {float} (mesh : Mesh.t float)
    (d : USDMeshData float) (pts : list (float * float * float)) groups
    lengths indices (sharpnesses : list float) :
  mesh_wf mesh → faces_consistent d →
  faces_consistent
    (mkUSDMeshData pts
       (face_vertex_counts d ++ (MPoly.totloop <$> polys mesh))
       (face_indices d ++ (polys mesh ≫= poly_indices (Mesh.mloop mesh)))
       groups lengths indices sharpnesses).
Proof.
  intros Hwf Hcons. unfold faces_consistent in *. cbn.
  rewrite length_app, sum_list_app, Nat2Z.inj_add, Hcons. f_equal.
  apply length_polys_indices, (wf_polys mesh Hwf).
Qed.

(** The face arrays stay consistent.  On a well-formed mesh
    [get_loops_polys] returns; it appends one count per polygon, the
    polygon's number of loops, and the vertex indices of the polygon's loops
    in loop order; face arrays whose indices were as many as the counts add up
    to are so afterwards; points and crease arrays are untouched. *)
Theorem get_loops_polys_consistent {float} (mesh : Mesh.t float)
    (d : USDMeshData float) :
  mesh_wf mesh →
  faces_consistent d →
  ∃ d', get_loops_polys mesh d = Some d'
    ∧ faces_consistent d'
    ∧ face_vertex_counts d'
      = face_vertex_counts d ++ (MPoly.totloop <$> polys mesh)
    ∧ Z.of_nat (length (polys mesh)) = Mesh.totpoly mesh
    ∧ face_indices d'
      = face_indices d ++ (polys mesh ≫= poly_indices (Mesh.mloop mesh))
    ∧ points d' = points d
    ∧ crease_lengths d' = crease_lengths d
    ∧ crease_vertex_indices d' = crease_vertex_indices d
    ∧ crease_sharpnesses d' = crease_sharpnesses d.
Proof.
  intros Hwf Hcons.
  destruct (get_loops_polys_run mesh d Hwf) as (groups & Hrun & _).
  eexists. split; [exact Hrun|].
  split; [by apply faces_consistent_append|].
  split_and!; try done. by apply length_polys.
Qed.

(** The face groups are the polygons by material.  On a well-formed mesh and
    data without face groups: with at most one material slot no group is
    made; with more, the group of a material number lists the indices of
    the polygons with that material, in polygon order, a group exists for
    exactly the material numbers in use, and so every polygon is in the
    group of its own material and in no other. *)
Theorem get_loops_polys_face_groups {float} (mesh : Mesh.t float)
    (d : USDMeshData float) :
  mesh_wf mesh →
  face_groups d = ∅ →
  ∃ d', get_loops_polys mesh d = Some d'
    ∧ (Mesh.totcol mesh ≤ 1 → face_groups d' = ∅)
    ∧ (1 < Mesh.totcol mesh →
       (∀ m, default [] (face_groups d' !! m) = material_faces m 0 (polys mesh))
       ∧ (∀ m, is_Some (face_groups d' !! m) ↔
               ∃ poly, poly ∈ polys mesh ∧ MPoly.mat_nr poly = m)
       ∧ (∀ i poly m, polys mesh !! i = Some poly →
            Z.of_nat i ∈ default [] (face_groups d' !! m)
            ↔ m = MPoly.mat_nr poly)
       ∧ (∀ m k, k ∈ default [] (face_groups d' !! m) →
            ∃ i poly, k = Z.of_nat i ∧ polys mesh !! i = Some poly
                      ∧ MPoly.mat_nr poly = m)).
Proof.
  intros Hwf Hempty.
  destruct (get_loops_polys_run mesh d Hwf) as (groups & Hrun & Hfew & Hfaces & Hkeys).
  eexists. split; [exact Hrun|]. cbn. split.
  { intros Hcol. by rewrite (Hfew Hcol). }
  intros Hcol.
  assert (Hgroup : ∀ m, default [] (groups !! m) = material_faces m 0 (polys mesh)).
  { intros m. by rewrite (Hfaces Hcol m), Hempty, lookup_empty. }
  split_and!.
  - done.
  - intros m. rewrite (Hkeys Hcol m), Hempty, lookup_empty. split.
    + by intros [[? [=]]|?].
    + by right.
  - intros i poly m Hi. rewrite Hgroup, elem_of_material_faces. split.
    + intros (i' & poly' & Heq & Hi' & Hm). cbn in Heq.
      assert (i' = i) as -> by lia. congruence.
    + intros ->. by exists i, poly.
  - intros m k. rewrite Hgroup, elem_of_material_faces.
    intros (i & poly & -> & Hi & Hm). by exists i, poly.
Qed.

(** ** The whole geometry *)

(** On a well-formed mesh [get_geometry_data], started on a default
    constructed [USDMeshData], returns: there is one point per vertex, the
    coordinates of the vertices in order, one face count per polygon, as many
    face vertex indices as the counts add up to, and consistent crease
    arrays with one crease per creased edge. *)
Theorem get_geometry_data_total {float} (ops : FloatOps float) (inf : float)
    (mesh : Mesh.t float) :
  mesh_wf mesh →
  ∃ d', get_geometry_data ops inf mesh empty_data = Some d'
    ∧ points d'
      = (MVert.co <$> take (Z.to_nat (Mesh.totvert mesh)) (Mesh.mvert mesh))
    ∧ Z.of_nat (length (points d')) = Mesh.totvert mesh
    ∧ Z.of_nat (length (face_vertex_counts d')) = Mesh.totpoly mesh
    ∧ faces_consistent d'
    ∧ creases_consistent d'
    ∧ length (crease_lengths d') = length (creased_edges mesh).
Proof.
  intros Hwf. pose proof Hwf as [Hvert Hedge Hpoly _ _].
  unfold get_geometry_data. rewrite (get_vertices_run mesh _ Hvert).
  destruct (get_loops_polys_run mesh
              (mkUSDMeshData
                 ([] ++ (MVert.co <$> take (Z.to_nat (Mesh.totvert mesh))
                                        (Mesh.mvert mesh)))
                 [] [] ∅ [] [] []) Hwf) as (groups & Hrun & _).
  cbn in Hrun |- *. rewrite Hrun.
  rewrite (get_creases_run ops inf mesh _ (proj2 Hedge)). cbn.
  eexists. split; [done|]. cbn. split_and!.
  - done.
  - rewrite length_fmap, length_take. lia.
  - rewrite length_fmap. by apply length_polys.
  - by apply (faces_consistent_append mesh empty_data).
  - apply (creases_consistent_append ops inf empty_data).
    unfold creases_consistent. by cbn.
  - by rewrite length_fmap.
Qed.

(** ** The mesh of two faces *)

Lemma demo_mesh_wf : mesh_wf demo_mesh.
Proof.
  constructor; cbn; try lia.
  intros poly Hin. apply list_elem_of_In in Hin. cbn in Hin.
  destruct Hin as [<-|[<-|[]]]; cbn; lia.
Qed.

Lemma get_creases_consistent_witness :
  ∃ d', get_creases float_expr_ops FSharpnessInfinite demo_mesh empty_data = Some d'
    ∧ creases_consistent d'
    ∧ crease_lengths d' = [2; 2].
Proof.
  destruct (get_creases_consistent float_expr_ops FSharpnessInfinite demo_mesh
              empty_data) as (d' & Hrun & Hcons & Hlens & _).
  - vm_compute. by intros [=].
  - unfold creases_consistent. by cbn.
  - by exists d'.
Defined.

Lemma get_creases_contents_witness :
  ∃ d', get_creases float_expr_ops FSharpnessInfinite demo_mesh empty_data = Some d'
    ∧ crease_sharpnesses d'
      = [FSharpnessInfinite; FMul (FOfInt 128) (FDiv (FLit 1) (FLit 255))]
    ∧ crease_vertex_indices d' = [1; 2; 1; 4].
Proof.
  destruct (get_creases_contents float_expr_ops FSharpnessInfinite demo_mesh
              empty_data) as (d' & Hrun & Hsharp & Hidx & _).
  - vm_compute. by intros [=].
  - by exists d'.
Defined.

Lemma get_loops_polys_consistent_witness :
  ∃ d', get_loops_polys demo_mesh empty_data = Some d'
    ∧ faces_consistent d'
    ∧ face_vertex_counts d' = [4; 3]
    ∧ face_indices d' = [0; 1; 2; 3; 1; 4; 2].
Proof.
  destruct (get_loops_polys_consistent demo_mesh empty_data demo_mesh_wf)
    as (d' & Hrun & Hcons & Hcounts & _ & Hidx & _).
  - reflexivity.
  - by exists d'.
Defined.

Lemma get_loops_polys_face_groups_witness :
  ∃ d', get_loops_polys demo_mesh empty_data = Some d'
    ∧ default [] (face_groups d' !! 0) = [0]
    ∧ default [] (face_groups d' !! 1) = [1].
Proof.
  destruct (get_loops_polys_face_groups demo_mesh empty_data demo_mesh_wf
              eq_refl) as (d' & Hrun & _ & Hgroups).
  destruct Hgroups as (Hfaces & _); [vm_compute; reflexivity|].
  exists d'. split; [done|]. by rewrite !Hfaces.
Defined.

Lemma get_geometry_data_total_witness :
  ∃ d', get_geometry_data float_expr_ops FSharpnessInfinite demo_mesh empty_data
        = Some d'
    ∧ Z.of_nat (length (points d')) = 5
    ∧ faces_consistent d'
    ∧ creases_consistent d'.
Proof.
  destruct (get_geometry_data_total float_expr_ops FSharpnessInfinite demo_mesh
              demo_mesh_wf) as (d' & Hrun & _ & Hpts & _ & Hfaces & Hcreases & _).
  exists d'. split; [exact Hrun|]. split; [exact Hpts|].
  split; [exact Hfaces | exact Hcreases].
Defined.

End USDGenericMeshWriterFacts.
